(** * ngAdvancedCache 0.6.0: the LRU / expiry engine of a cache instance,
    and the factory of the instances

    A shallow embedding of [src/dist/ngAdvancedCache-0.6.0.js].  One
    [AdvancedCache] instance is a closure over the variables [size],
    [config], [data], [lruHash], [freshEnd] and [staleEnd]; the nodes of the
    LRU list are JavaScript objects that are shared between [lruHash], the
    two end pointers and the [n]/[p] fields of their neighbours, so they live
    in an explicit store of objects addressed by location.  The host's timer
    service ([setTimeout], [setInterval], [clearTimeout], [clearInterval])
    and clock ([new Date().getTime()]) are part of the state as well, and
    the host running a timer is one of the things that can happen to an
    instance.

    Modelling conventions:
    - plain JavaScript objects used as dictionaries ([data], [lruHash],
      [config], [caches], the result of [info]) are [gmap string _], their
      own properties.  For a key that names a member inherited from
      [Object.prototype] and has no property of its own, [lruHash[key]] and
      [key in data] find the inherited member; that is outside the model of
      an instance, and the statements that depend on it are about keys that
      are an [own_name].  [cacheId in caches] in the factory is embedded
      with the inherited members;
    - numbers are the integral ones, a [Z]; [Number.MAX_VALUE] is the integer
      2^1024 - 2^971; NaN and fractions are outside the model;
    - a method returns or throws, and gives the state back in both cases;
    - a timer is due its delay after it was armed; a host does so for
      delays up to [MAX_DELAY];
    - [angular.extend], [angular.isString], [angular.isNumber],
      [angular.isUndefined] and [angular.forEach] are AngularJS helpers,
      embedded by their documented behaviour;
    - the factory keeps its instances in a store of their own, by
      reference, beside its registry [caches]; every instance has its own
      view of the timer service.

    The file has the embedding first, then the properties: the list
    operations, [info], [destroy], [put] with bad arguments, the regular
    states in which store, list and counter agree, the runs on which the
    code leaves them, the methods one by one, the expiry of an entry, and
    the factory with its registry. *)

From stdpp Require Import gmap strings list fin_maps.

Open Scope string_scope.
Open Scope list_scope.
Open Scope Z_scope.

(** ** JavaScript values *)

Inductive jsval :=
  | VUndef
  | VNull
  | VBool (b : bool)
  | VNum (z : Z)
  | VStr (s : string)
  | VObj (id : nat).

#[export] Instance jsval_eq_dec : EqDecision jsval.
Proof. solve_decision. Defined.

(** ToBoolean *)
Definition truthy (v : jsval) : bool :=
  match v with
  | VUndef | VNull => false
  | VBool b => b
  | VNum z => negb (Z.eqb z 0)
  | VStr s => negb (String.eqb s "")
  | VObj _ => true
  end.

Definition isNumber (v : jsval) : bool :=
  match v with VNum _ => true | _ => false end.

Definition isUndefined (v : jsval) : bool :=
  match v with VUndef => true | _ => false end.

Definition MAX_VALUE : Z := 2 ^ 1024 - 2 ^ 971.

(** A value passed as a key.  What the code does with a key is test it with
    [angular.isString] and use it as a property name, so a key that is not a
    string is represented by the property name JavaScript converts it to
    (5 gives "5", null gives "null"). *)
Inductive jskey :=
  | KString (s : string)
  | KOther (name : string).

#[export] Instance jskey_eq_dec : EqDecision jskey.
Proof. solve_decision. Defined.

Definition isString (k : jskey) : bool :=
  match k with KString _ => true | KOther _ => false end.

Definition prop (k : jskey) : string :=
  match k with KString s => s | KOther s => s end.

(** The names of the members that every object inherits from
    [Object.prototype].  On the dictionaries of the code, all made by [{}],
    [obj[name]] and [name in obj] find these members when the object has no
    property of that name of its own. *)
Definition Object_prototype : gset string :=
  {["constructor"; "toString"; "toLocaleString"; "valueOf";
    "hasOwnProperty"; "isPrototypeOf"; "propertyIsEnumerable";
    "__proto__"; "__defineGetter__"; "__defineSetter__";
    "__lookupGetter__"; "__lookupSetter__"]}.

(** A key whose property name is none of them.  [data] and [lruHash] are
    embedded by their own properties, which is all that the code sees of
    them for such a key. *)
Definition own_name (k : jskey) : Prop := prop k ∉ Object_prototype.

(** ** Objects of the instance *)

Definition loc := nat.

(** A reference held in a variable or field: [undefined], [null] or an
    LRU node. *)
Inductive ref :=
  | RUndef
  | RNull
  | RObj (l : loc).

#[export] Instance ref_eq_dec : EqDecision ref.
Proof. solve_decision. Defined.

Definition is_obj (r : ref) : bool :=
  match r with RObj _ => true | _ => false end.

(** A node of the LRU list, [{key: key}] with the fields [n] (next, towards
    the fresh end) and [p] (previous, towards the stale end) added by
    [_link]. *)
Module lru.
Record entry := Entry { key : jskey; n : ref; p : ref }.
Definition set_n (r : ref) (e : entry) : entry :=
  {| key := key e; n := r; p := p e |}.
Definition set_p (r : ref) (e : entry) : entry :=
  {| key := key e; n := n e; p := r |}.
End lru.

(** An item of [data]: [{value: value}] with [timestamp] and [timeoutId]
    added when a max age applies. *)
Module item.
Record t := Item { value : jsval; timestamp : jsval; timeoutId : jsval }.
End item.

(** What a scheduled callback does when it runs: the closure of [put]
    calls [self.remove(key)], the closure of the constructor flushes. *)
Inductive action :=
  | ARemove (k : jskey)
  | AFlush.

(** A pending timer of the host: when it is due, and for [setInterval] its
    period. *)
Record timer := Timer { due : Z; period : option Z; act : action }.

(** ** The state of one instance and of its host *)

Record cache := Cache {
  size : Z;
  config : option (gmap string jsval);   (* None is null *)
  data : option (gmap string item.t);     (* None is null *)
  lruHash : option (gmap string loc);     (* None is null *)
  freshEnd : ref;
  staleEnd : ref;
  heap : gmap loc lru.entry;
  timers : gmap Z timer;
  nextTimer : Z;
  now : Z
}.

Definition set_size (f : Z → Z) (c : cache) : cache :=
  Cache (f (size c)) (config c) (data c) (lruHash c) (freshEnd c)
        (staleEnd c) (heap c) (timers c) (nextTimer c) (now c).
Definition set_config (x : option (gmap string jsval)) (c : cache) : cache :=
  Cache (size c) x (data c) (lruHash c) (freshEnd c)
        (staleEnd c) (heap c) (timers c) (nextTimer c) (now c).
Definition set_data (x : option (gmap string item.t)) (c : cache) : cache :=
  Cache (size c) (config c) x (lruHash c) (freshEnd c)
        (staleEnd c) (heap c) (timers c) (nextTimer c) (now c).
Definition set_lruHash (x : option (gmap string loc)) (c : cache) : cache :=
  Cache (size c) (config c) (data c) x (freshEnd c)
        (staleEnd c) (heap c) (timers c) (nextTimer c) (now c).
Definition set_freshEnd (x : ref) (c : cache) : cache :=
  Cache (size c) (config c) (data c) (lruHash c) x
        (staleEnd c) (heap c) (timers c) (nextTimer c) (now c).
Definition set_staleEnd (x : ref) (c : cache) : cache :=
  Cache (size c) (config c) (data c) (lruHash c) (freshEnd c)
        x (heap c) (timers c) (nextTimer c) (now c).
Definition set_heap (f : gmap loc lru.entry → gmap loc lru.entry)
    (c : cache) : cache :=
  Cache (size c) (config c) (data c) (lruHash c) (freshEnd c)
        (staleEnd c) (f (heap c)) (timers c) (nextTimer c) (now c).
Definition set_timers (f : gmap Z timer → gmap Z timer) (c : cache) : cache :=
  Cache (size c) (config c) (data c) (lruHash c) (freshEnd c)
        (staleEnd c) (heap c) (f (timers c)) (nextTimer c) (now c).
Definition set_nextTimer (x : Z) (c : cache) : cache :=
  Cache (size c) (config c) (data c) (lruHash c) (freshEnd c)
        (staleEnd c) (heap c) (timers c) x (now c).
Definition set_now (x : Z) (c : cache) : cache :=
  Cache (size c) (config c) (data c) (lruHash c) (freshEnd c)
        (staleEnd c) (heap c) (timers c) (nextTimer c) x.

(** ** Operations that may throw

    A method runs on the state and either returns or throws; the state
    comes back in both cases, since a method can have written before it
    throws. *)

Inductive exn :=
  | ErrKey           (* new Error('The key must be a string!') *)
  | ErrValidation    (* new Error(errorMsg), errorMsg not empty *)
  | TypeError.       (* property access on null or undefined *)

Inductive outcome (A : Type) :=
  | Return (a : A)
  | Throw (e : exn).
Arguments Return {A} a.
Arguments Throw {A} e.

Definition M (A : Type) : Type := cache → cache * outcome A.

Definition ret {A} (a : A) : M A := fun c => (c, Return a).
Definition throw {A} (e : exn) : M A := fun c => (c, Throw e).
Definition bind {A B} (m : M A) (k : A → M B) : M B :=
  fun c => match m c with
           | (c', Return a) => k a c'
           | (c', Throw e) => (c', Throw e)
           end.
Definition gets {A} (f : cache → A) : M A := fun c => (c, Return (f c)).
Definition modify (f : cache → cache) : M unit := fun c => (f c, Return tt).

Notation "x <- m ;; k" := (bind m (fun x => k))
  (at level 100, m at next level, right associativity).
Notation "m ;; k" := (bind m (fun _ => k))
  (at level 100, right associativity).

(** ** The LRU list: [_link] and [_refresh] *)

Definition field_n (r : loc) (c : cache) : ref :=
  match heap c !! r with Some e => lru.n e | None => RUndef end.
Definition field_p (r : loc) (c : cache) : ref :=
  match heap c !! r with Some e => lru.p e | None => RUndef end.
Definition field_key (r : loc) (c : cache) : jskey :=
  match heap c !! r with Some e => lru.key e | None => KOther "undefined" end.

(** [entry.n = r] *)
Definition assign_n (entry : loc) (r : ref) : cache → cache :=
  set_heap (alter (lru.set_n r) entry).

(** [_link] writes to the two nodes only, so it is a function of the
    store of nodes. *)
Definition _link (nextEntry prevEntry : ref) (h : gmap loc lru.entry)
    : gmap loc lru.entry :=
  if decide (nextEntry ≠ prevEntry) then
    let h1 := match nextEntry with
              | RObj ne => alter (lru.set_p prevEntry) ne h
              | _ => h
              end in
    match prevEntry with
    | RObj pe => alter (lru.set_n nextEntry) pe h1
    | _ => h1
    end
  else h.

Definition _refresh (entry : loc) (c : cache) : cache :=
  if decide (RObj entry ≠ freshEnd c) then
    let c1 := if negb (is_obj (staleEnd c)) then set_staleEnd (RObj entry) c
              else if decide (staleEnd c = RObj entry)
                   then set_staleEnd (field_n entry c) c
                   else c in
    let c2 := set_heap (_link (field_n entry c1) (field_p entry c1)) c1 in
    let c3 := set_heap (_link (RObj entry) (freshEnd c2)) c2 in
    let c4 := set_freshEnd (RObj entry) c3 in
    assign_n entry RNull c4
  else c.

(** ** Validation

    Each validator builds an error message that is empty when the value
    passes; the constructor and [put] only test whether the message is
    empty, so the validators are embedded as that test.  A value that is
    truthy and not a number gets a message whatever [v < 0] gives. *)

Definition lt_zero (v : jsval) : bool :=
  match v with VNum z => Z.ltb z 0 | _ => false end.

Definition _validate (v : jsval) : bool :=
  truthy v && (negb (isNumber v) || lt_zero v).

Definition _validateCapacity (cfg : gmap string jsval) : bool :=
  _validate (default VUndef (cfg !! "capacity")).
Definition _validateCacheFlushInterval (cfg : gmap string jsval) : bool :=
  _validate (default VUndef (cfg !! "cacheFlushInterval")).
Definition _validateMaxAge (maxAge : jsval) : bool :=
  _validate maxAge.

(** ** The timer service of the host *)

(** The delay that the code hands to the host, in milliseconds. *)
Definition to_delay (v : jsval) : Z :=
  match v with VNum z => Z.max z 0 | _ => 0 end.

(** The largest delay that the timers of a host take as it is, a signed
    32-bit number of milliseconds.  The timers below are due the delay after
    now; what a host does with a larger delay is outside the model. *)
Definition MAX_DELAY : Z := 2 ^ 31 - 1.

(** [setTimeout(callback, delay)]: the handle is a fresh positive number. *)
Definition setTimeout (a : action) (delay : jsval) : M jsval :=
  fun c =>
    let id := nextTimer c in
    (set_nextTimer (id + 1)
       (set_timers <[id := Timer (now c + to_delay delay) None a]> c),
     Return (VNum id)).

Definition setInterval (a : action) (delay : jsval) : M jsval :=
  fun c =>
    let id := nextTimer c in
    (set_nextTimer (id + 1)
       (set_timers <[id := Timer (now c + to_delay delay)
                                  (Some (to_delay delay)) a]> c),
     Return (VNum id)).

(** [clearTimeout(id)] and [clearInterval(id)]; anything that is not the
    handle of a pending timer is ignored. *)
Definition clearTimer (id : jsval) (c : cache) : cache :=
  match id with
  | VNum i => set_timers (delete i) c
  | _ => c
  end.

(** ** The methods of [AdvancedCache] *)

(** [obj.name] on a dictionary: [undefined] when the property is missing. *)
Definition getprop (o : gmap string jsval) (name : string) : jsval :=
  default VUndef (o !! name).

(** [options && options.maxAge] for the optional third argument of [put];
    [None] is a call without options, [Some v] a call with
    [{maxAge: v}]. *)
Definition optionsMaxAge (options : option jsval) : jsval :=
  match options with Some v => v | None => VUndef end.

(** [size > config.capacity]; the constructor leaves a number in
    [config.capacity]. *)
Definition exceeds (sz : Z) (capacity : jsval) : bool :=
  match capacity with VNum cap => Z.ltb cap sz | _ => false end.

(** [lruHash[key] || (lruHash[key] = {key: key})], on the own properties of
    [lruHash]; so are [lruHash[key]] in [get] and [remove], and
    [key in data] in [put], below (see [own_name]). *)
Definition lookupOrCreate (key : jskey) : M loc :=
  fun c =>
    match lruHash c with
    | None => (c, Throw TypeError)
    | Some h =>
        match h !! prop key with
        | Some lruEntry => (c, Return lruEntry)
        | None =>
            let lruEntry := fresh (dom (heap c)) in
            (set_lruHash (Some (<[prop key := lruEntry]> h))
               (set_heap <[lruEntry := lru.Entry key RUndef RUndef]> c),
             Return lruEntry)
        end
    end.

(** [data[key].field = ...] *)
Definition updateItem (key : jskey) (f : item.t → item.t) : M unit :=
  fun c =>
    match data c with
    | None => (c, Throw TypeError)
    | Some d => (set_data (Some (alter f (prop key) d)) c, Return tt)
    end.

Definition itemTimeoutId (key : jskey) : M jsval :=
  fun c =>
    match data c with
    | None => (c, Throw TypeError)
    | Some d =>
        match d !! prop key with
        | None => (c, Throw TypeError)
        | Some it => (c, Return (item.timeoutId it))
        end
    end.

(** The statements of [remove] that take the node out of the list (lines
    306 to 312). *)
Definition remove_unlink (lruEntry : loc) (c : cache) : cache :=
  let c1 := if decide (RObj lruEntry = freshEnd c)
            then set_freshEnd (field_p lruEntry c) c else c in
  let c2 := if decide (RObj lruEntry = staleEnd c1)
            then set_staleEnd (field_n lruEntry c1) c1 else c1 in
  set_heap (_link (field_n lruEntry c2) (field_p lruEntry c2)) c2.

Definition remove (key : jskey) : M jsval :=
  h <- gets lruHash ;;
  match h with
  | None => throw TypeError
  | Some h =>
      match h !! prop key with
      | None => ret VUndef
      | Some lruEntry =>
          modify (remove_unlink lruEntry) ;;
          modify (set_lruHash (Some (delete (prop key) h))) ;;
          d <- gets data ;;
          match d with
          | None => throw TypeError
          | Some d =>
              modify (set_data (Some (delete (prop key) d))) ;;
              modify (set_size Z.pred) ;;
              ret VUndef
          end
      end
  end.

(** Two parts of the body of [put]: the arming of the expiry (lines 244
    to 252) and the eviction (lines 254 to 256). *)
Definition put_arm (key : jskey) (options : option jsval)
    (cfg : gmap string jsval) : M unit :=
  if truthy (getprop cfg "maxAge") || truthy (optionsMaxAge options)
  then
    t <- gets now ;;
    updateItem key (fun it =>
      item.Item (item.value it) (VNum t) (item.timeoutId it)) ;;
    old <- itemTimeoutId key ;;
    (if truthy old then modify (clearTimer old) else ret tt) ;;
    id <- setTimeout (ARemove key)
            (if truthy (optionsMaxAge options)
             then optionsMaxAge options
             else getprop cfg "maxAge") ;;
    updateItem key (fun it =>
      item.Item (item.value it) (item.timestamp it) id)
  else ret tt.

Definition put_evict (cfg : gmap string jsval) : M jsval :=
  sz <- gets size ;;
  if exceeds sz (getprop cfg "capacity") then
    se <- gets staleEnd ;;
    match se with
    | RObj stale => k <- gets (field_key stale) ;; remove k
    | _ => throw TypeError
    end
  else ret VUndef.

Definition put (key : jskey) (value : jsval) (options : option jsval)
    : M jsval :=
  lruEntry <- lookupOrCreate key ;;
  if negb (isString key) then throw ErrKey else
  (if truthy (optionsMaxAge options) then
     if _validateMaxAge (optionsMaxAge options) then throw ErrValidation
     else ret tt
   else ret tt) ;;
  modify (_refresh lruEntry) ;;
  if isUndefined value then ret VUndef else
  d <- gets data ;;
  match d with
  | None => throw TypeError
  | Some d =>
      (if decide (is_Some (d !! prop key)) then ret tt
       else modify (set_size Z.succ)) ;;
      modify (set_data (Some (<[prop key := item.Item value VUndef VUndef]> d))) ;;
      cfg <- gets config ;;
      match cfg with
      | None => throw TypeError
      | Some cfg =>
          put_arm key options cfg ;;
          put_evict cfg ;;
          ret value
      end
  end.

Definition get (key : jskey) : M jsval :=
  h <- gets lruHash ;;
  match h with
  | None => throw TypeError
  | Some h =>
      match h !! prop key with
      | None => ret VUndef
      | Some lruEntry =>
          modify (_refresh lruEntry) ;;
          d <- gets data ;;
          match d with
          | None => throw TypeError
          | Some d =>
              match d !! prop key with
              | None => throw TypeError
              | Some it => ret (item.value it)
              end
          end
      end
  end.

Definition removeAll : M jsval :=
  modify (set_data (Some ∅)) ;;
  modify (set_size (fun _ => 0)) ;;
  modify (set_lruHash (Some ∅)) ;;
  modify (set_staleEnd RNull) ;;
  modify (set_freshEnd RNull) ;;
  ret VUndef.

(** [destroy] also deletes the instance from the factory's [caches]
    registry, which is not part of the instance. *)
Definition destroy : M jsval :=
  cfg <- gets config ;;
  match cfg with
  | None => throw TypeError
  | Some cfg =>
      modify (clearTimer (getprop cfg "cacheFlushIntervalId")) ;;
      modify (set_data None) ;;
      modify (set_config None) ;;
      modify (set_lruHash None) ;;
      ret VUndef
  end.

(** [angular.extend({}, config, {size: size})]; [angular.extend] skips a
    source that is [null]. *)
Definition info : M (gmap string jsval) :=
  cfg <- gets config ;;
  sz <- gets size ;;
  ret (<["size" := VNum sz]> (default ∅ cfg)).

(** ** The constructor and the callbacks of the timers *)

(** The callback given to [setInterval] by the constructor. *)
Definition flush (c : cache) : cache :=
  let c1 := match data c with
            | Some d => map_fold (fun _ it => clearTimer (item.timeoutId it)) c d
            | None => c
            end in
  set_staleEnd RNull
    (set_freshEnd RNull (set_lruHash (Some ∅) (set_data (Some ∅) c1))).

(** [new AdvancedCache(cacheId, options)] on a host whose clock reads 0 and
    that has no timer pending; [options] is empty when the argument is
    omitted. *)
Definition AdvancedCache (cacheId : string) (options : gmap string jsval)
    : outcome cache :=
  let config := <["id" := VStr cacheId]> options in
  if _validateCapacity config
     || _validateMaxAge (getprop config "maxAge")
     || _validateCacheFlushInterval config
  then Throw ErrValidation
  else
    let config := if truthy (getprop config "capacity") then config
                  else <["capacity" := VNum MAX_VALUE]> config in
    let c := Cache 0 (Some config) (Some ∅) (Some ∅) RNull RNull ∅ ∅ 1 0 in
    if truthy (getprop config "cacheFlushInterval") then
      match setInterval AFlush (getprop config "cacheFlushInterval") c with
      | (c', Return id) =>
          Return (set_config (Some (<["cacheFlushIntervalId" := id]> config)) c')
      | (_, Throw e) => Throw e
      end
    else Return c.

(** The host runs the callback of timer [id], which it may do once the
    timer is due; a timeout is spent by that, an interval is scheduled
    again. *)
Definition fire (id : Z) : M jsval :=
  ts <- gets timers ;;
  t <- gets now ;;
  match ts !! id with
  | None => ret VUndef
  | Some tm =>
      if decide (due tm ≤ t) then
        modify (set_timers
                  match period tm with
                  | None => delete id
                  | Some d => <[id := Timer (due tm + d) (Some d) (act tm)]>
                  end) ;;
        match act tm with
        | ARemove k => remove k
        | AFlush => modify flush ;; ret VUndef
        end
      else ret VUndef
  end.

(** Time passes on the host. *)
Definition sleep (dt : Z) : M jsval :=
  modify (fun c => set_now (now c + Z.max dt 0) c) ;; ret VUndef.

(** What a caller or the host can do to an instance. *)
Inductive call :=
  | Put (key : jskey) (value : jsval) (options : option jsval)
  | Get (key : jskey)
  | Remove (key : jskey)
  | RemoveAll
  | Destroy
  | Info
  | Sleep (dt : Z)
  | Fire (id : Z).

Inductive result :=
  | Val (v : jsval)
  | Obj (o : gmap string jsval).

Definition exec (f : call) : M result :=
  match f with
  | Put k v o => r <- put k v o ;; ret (Val r)
  | Get k => r <- get k ;; ret (Val r)
  | Remove k => r <- remove k ;; ret (Val r)
  | RemoveAll => r <- removeAll ;; ret (Val r)
  | Destroy => r <- destroy ;; ret (Val r)
  | Info => r <- info ;; ret (Obj r)
  | Sleep dt => r <- sleep dt ;; ret (Val r)
  | Fire id => r <- fire id ;; ret (Val r)
  end.

(** A sequence of calls; a call that throws leaves its writes behind and
    the sequence goes on, as a caller that catches would. *)
Fixpoint run (fs : list call) (c : cache) : cache :=
  match fs with
  | [] => c
  | f :: fs' => run fs' (fst (exec f c))
  end.

(** The results of the calls of a sequence, in order. *)
Fixpoint results (fs : list call) (c : cache) : list (outcome result) :=
  match fs with
  | [] => []
  | f :: fs' => snd (exec f c) :: results fs' (fst (exec f c))
  end.

(** ** The list that the nodes represent

    [seg h prev l next]: in the store [h] the nodes [l] are linked in this
    order by their [n] fields and in the reverse order by their [p] fields;
    the first has [prev] for [p], the last has [next] for [n].  The list of
    an instance runs from the stale end to the fresh end. *)

Definition hd_ref (l : list loc) (next : ref) : ref :=
  match l with [] => next | x :: _ => RObj x end.

Fixpoint lst_ref (l : list loc) (prev : ref) : ref :=
  match l with [] => prev | x :: l' => lst_ref l' (RObj x) end.

Fixpoint seg (h : gmap loc lru.entry) (prev : ref) (l : list loc)
    (next : ref) : Prop :=
  match l with
  | [] => True
  | x :: l' =>
      (∃ e, h !! x = Some e ∧ lru.p e = prev ∧ lru.n e = hd_ref l' next)
      ∧ seg h (RObj x) l' next
  end.

Definition lru_list (c : cache) (l : list loc) : Prop :=
  NoDup l ∧ seg (heap c) RNull l RNull
  ∧ staleEnd c = hd_ref l RNull ∧ freshEnd c = lst_ref l RNull.

(** A node that [put] has just created: no [n], no [p]. *)
Definition unlinked (c : cache) (entry : loc) : Prop :=
  ∃ e, heap c !! entry = Some e ∧ lru.n e = RUndef ∧ lru.p e = RUndef.

(** The keys of the nodes of a list. *)
Definition keys_of (c : cache) (l : list loc) : list jskey :=
  (λ x, field_key x c) <$> l.

(** ** A cache made by the constructor, for the examples *)

Definition mk (cacheId : string) (options : gmap string jsval) : cache :=
  match AdvancedCache cacheId options with
  | Return c => c
  | Throw _ => Cache 0 None None None RNull RNull ∅ ∅ 1 0
  end.

(** ** Statements about the methods *)

(** Every state a method can leave is related to the state it started
    from. *)
Definition preserves {A} (R : relation cache) (m : M A) : Prop :=
  ∀ c, R c (fst (m c)).

Definition same_config : relation cache := λ c c', config c' = config c.


(** The key of a call, when it has one, is an [own_name]. *)
Definition own_call (f : call) : Prop :=
  match f with
  | Put k _ _ | Get k | Remove k => own_name k
  | _ => True
  end.



(** The per-call max age does not pass [_validateMaxAge]. *)
Definition bad_maxAge (options : option jsval) : Prop :=
  truthy (optionsMaxAge options) = true
  ∧ _validateMaxAge (optionsMaxAge options) = true.


(** The result of [info] has no field besides the id, the three options
    and the size. *)
Definition info_fields_only (c : cache) : Prop :=
  ∃ o, snd (info c) = Return o
       ∧ dom o ⊆ ({["id"; "capacity"; "maxAge"; "flushInterval";
                    "cacheFlushInterval"; "size"]} : gset string).

(** The entry store, the list and the counter agree. *)
Definition consistent (c : cache) : Prop :=
  ∃ d l, data c = Some d ∧ lru_list c l
         ∧ dom d = list_to_set (prop <$> keys_of c l)
         ∧ size c = Z.of_nat (base.size d).

(** The result of [info] in state [c] of an instance that the constructor
    made as [c0] from [cacheId] and [options]: the [config] of [c0] with the
    size added. *)
Definition info_is_snapshot (cacheId : string) (options : gmap string jsval)
    (c0 c : cache) : Prop :=
  ∃ cfg o,
    config c0 = Some cfg
    ∧ info c = (c, Return o)
    ∧ o = <["size" := VNum (size c)]> cfg
    ∧ dom o = {["id"; "capacity"; "size"]} ∪ dom options
              ∪ (if truthy (getprop options "cacheFlushInterval")
                 then {["cacheFlushIntervalId"]} else ∅)
    ∧ cfg !! "id" = Some (VStr cacheId)
    ∧ cfg !! "capacity"
      = Some (if truthy (getprop options "capacity")
              then getprop options "capacity" else VNum MAX_VALUE)
    ∧ (∀ name, name ∉ ({["id"; "capacity"; "cacheFlushIntervalId"]}
                         : gset string) →
               cfg !! name = options !! name)
    ∧ (truthy (getprop options "cacheFlushInterval") = true →
       ∃ id tm, cfg !! "cacheFlushIntervalId" = Some (VNum id)
                ∧ timers c0 !! id = Some tm ∧ act tm = AFlush).


(** ** Instances in a regular state *)

(** The state after [put] has stored the value: the node is refreshed,
    the size counts a new key and [data[key]] is a new item. *)
Definition put_stored (key : jskey) (value : jsval) (lruEntry : loc)
    (d : gmap string item.t) (c : cache) : cache :=
  set_data (Some (<[prop key := item.Item value VUndef VUndef]> d))
    ((if decide (is_Some (d !! prop key)) then id else set_size Z.succ)
       (_refresh lruEntry c)).

(** [lruHash] is the index of the nodes of the list by their keys. *)
Definition indexed (c : cache) (l : list loc) (h : gmap string loc) : Prop :=
  ∀ k x, h !! k = Some x ↔ x ∈ l ∧ prop (field_key x c) = k.

(** The list, the index, the store and the counter agree. *)
Definition inv (c : cache) (l : list loc) : Prop :=
  lru_list c l
  ∧ ∃ d h, data c = Some d ∧ lruHash c = Some h ∧ indexed c l h
           ∧ dom d = dom h ∧ base.size h = length l
           ∧ size c = Z.of_nat (length l).

(** The capacity is a number, at least 1, and the size is within it. *)
Definition bounded (c : cache) : Prop :=
  ∃ cfg cap, config c = Some cfg ∧ getprop cfg "capacity" = VNum cap
             ∧ 1 ≤ cap ∧ size c ≤ cap.

(** No flush is scheduled: every pending timer is the expiry of a key. *)
Definition expiry_only (c : cache) : Prop :=
  ∀ id tm, timers c !! id = Some tm → ∃ k, act tm = ARemove k.

(** Two states with the same list, index, configuration and size, and
    with the same values under the same keys in the store. *)
Definition same_shape (c c' : cache) : Prop :=
  heap c' = heap c ∧ staleEnd c' = staleEnd c ∧ freshEnd c' = freshEnd c
  ∧ lruHash c' = lruHash c ∧ config c' = config c ∧ size c' = size c
  ∧ (∃ d d', data c = Some d ∧ data c' = Some d'
             ∧ ∀ key, item.value <$> d' !! key = item.value <$> d !! key)
  ∧ (expiry_only c → expiry_only c').

(** A regular state: the invariant, the capacity bound, no flush. *)
Definition regular (c : cache) (l : list loc) : Prop :=
  inv c l ∧ bounded c ∧ expiry_only c.

(** Calls with a string for a key, a value that is not undefined and a max
    age that passes validation; no [destroy]. *)
Definition clean (f : call) : Prop :=
  match f with
  | Put k v o => isString k = true ∧ v ≠ VUndef ∧ ¬ bad_maxAge o
  | Destroy => False
  | _ => True
  end.

Definition same_timers : relation cache := λ c c', timers c' = timers c.

(** ** Scenarios *)

Definition two_nodes : cache :=
  run [Put (KString "a") (VNum 1) None; Put (KString "b") (VNum 2) None]
      (mk "c" ∅).

(** capacity 1; a key is put without a value, then two keys with
    values *)
Definition capacity_one : cache := mk "c" {["capacity" := VNum 1]}.
Definition ghost_then_two : list call :=
  [Put (KString "g") VUndef None;
   Put (KString "a") (VNum 1) None;
   Put (KString "b") (VNum 2) None].

(** maxAge 100; "x" is put at time 0 and overwritten at time 50; at time
    100 the host runs the timer of the first put *)
Definition max_age_100 : cache := mk "c" {["maxAge" := VNum 100]}.
Definition overwrite_at_50 : list call :=
  [Put (KString "x") (VNum 1) None; Sleep 50;
   Put (KString "x") (VNum 2) None; Sleep 50].

(** "x" is put with a max age of 100 and removed; it is put again
    without a max age; at time 100 the timer of the first put runs *)
Definition remove_then_put : list call :=
  [Put (KString "x") (VNum 1) (Some (VNum 100)); Remove (KString "x");
   Put (KString "x") (VNum 2) None; Sleep 100].

(** a flush every 1000; one key is put; the flush runs at time 1000 *)
Definition flush_1000 : cache := mk "c" {["cacheFlushInterval" := VNum 1000]}.
Definition put_then_flush : list call :=
  [Put (KString "a") (VNum 1) None; Sleep 1000; Fire 1].

(** a key is put without a value on a new instance *)
Definition put_undefined : list call := [Put (KString "k") VUndef None].

(** capacity 2, filled by two puts *)
Definition full_two : cache :=
  run [Put (KString "a") (VNum 1) None; Put (KString "b") (VNum 2) None]
      (mk "c" {["capacity" := VNum 2]}).

(** What the validators let pass for an option: nothing, a falsy value
    (0 among them), or a number above 0. *)
Definition accepted (v : jsval) : Prop :=
  truthy v = false ∨ ∃ z, v = VNum z ∧ 0 < z.

Definition options_accepted (options : gmap string jsval) : Prop :=
  accepted (getprop options "capacity")
  ∧ accepted (getprop options "maxAge")
  ∧ accepted (getprop options "cacheFlushInterval").

(** The max age in force for a [put]: the one of the call when it is
    truthy, else the one of the configuration (lines 244 and 250). *)
Definition maxAgeInForce (options : option jsval) (cfg : gmap string jsval)
    : jsval :=
  if truthy (optionsMaxAge options) then optionsMaxAge options
  else getprop cfg "maxAge".

(** The timer service of the host is as it was. *)
Definition same_service : relation cache := λ c c',
  timers c' = timers c ∧ nextTimer c' = nextTimer c ∧ now c' = now c.

(** ** The factory and its registry of instances

    [$get] makes one [caches] object and returns [advancedCacheFactory];
    the [AdvancedCache] objects that it makes are shared between [caches]
    and the callers, so they live in a store of their own, by reference,
    each with the [cacheId] of its closure.  A destroyed instance stays in
    that store: a caller may still hold it.  Every instance has its own
    view of the host's timer service, with a clock that counts from its
    creation; an instance only ever hands the host the handles that it
    keeps. *)

Record factory := Factory {
  caches : gmap string nat;
  instances : gmap nat (string * cache)
}.

(** The state that [$get] starts from. *)
Definition new_factory : factory := Factory ∅ ∅.

(** What [advancedCacheFactory] throws: its own two errors, and what the
    constructor throws. *)
Inductive factory_exn :=
  | ErrTaken
  | ErrCacheId
  | ErrNew (e : exn).

Inductive created :=
  | Created (r : nat)
  | Failed (e : factory_exn).

(** [cacheId in caches] holds of the ids that are registered and of the
    names of the members that [caches] inherits. *)
Definition advancedCacheFactory (cacheId : jskey)
    (options : gmap string jsval) (w : factory) : factory * created :=
  if decide (prop cacheId ∈ dom (caches w) ∪ Object_prototype)
  then (w, Failed ErrTaken)
  else if negb (isString cacheId) then (w, Failed ErrCacheId)
  else
    match AdvancedCache (prop cacheId) options with
    | Throw e => (w, Failed (ErrNew e))
    | Return c =>
        let r := fresh (dom (instances w)) in
        (Factory (<[prop cacheId := r]> (caches w))
                 (<[r := (prop cacheId, c)]> (instances w)),
         Created r)
    end.

(** [advancedCacheFactory.get(cacheId)]: [Some r] when the call returns the
    instance [r], [None] when it returns anything else, which is
    [undefined], or the inherited member for an id that names one. *)
Definition advancedCacheFactory_get (cacheId : jskey) (w : factory)
    : option nat :=
  caches w !! prop cacheId.

(** [advancedCacheFactory.info()]: [angular.forEach] visits the properties
    of [caches]; [cache.info()] does not throw and writes nothing. *)
Definition advancedCacheFactory_info (w : factory)
    : gmap string (gmap string jsval) :=
  omap (λ r, match instances w !! r with
             | Some (_, c) =>
                 match snd (info c) with
                 | Return o => Some o
                 | Throw _ => None
                 end
             | None => None
             end) (caches w).

(** A method call, or an event of the host, on the instance behind the
    reference [r]; [None] when [r] is not an instance.  The last statement
    of [destroy] (line 357), reached when the ones before it have not
    thrown, deletes the [cacheId] of the closure from [caches]. *)
Definition call_on (r : nat) (f : call) (w : factory)
    : option (factory * outcome result) :=
  match instances w !! r with
  | None => None
  | Some (cacheId, c) =>
      let c' := fst (exec f c) in
      let res := snd (exec f c) in
      let unregister : gmap string nat → gmap string nat :=
        match f, res with
        | Destroy, Return _ => delete cacheId
        | _, _ => id
        end in
      Some (Factory (unregister (caches w))
                    (<[r := (cacheId, c')]> (instances w)), res)
  end.

(** What a program does with a factory: it makes an instance, or it uses
    one. *)
Inductive factory_call :=
  | New (cacheId : jskey) (options : gmap string jsval)
  | On (r : nat) (f : call).

Definition factory_exec (a : factory_call) (w : factory) : factory :=
  match a with
  | New cacheId options => fst (advancedCacheFactory cacheId options w)
  | On r f => match call_on r f w with Some (w', _) => w' | None => w end
  end.

Fixpoint factory_run (l : list factory_call) (w : factory) : factory :=
  match l with
  | [] => w
  | a :: l' => factory_run l' (factory_exec a w)
  end.

(** The registry holds the instances that are not destroyed, each under
    the id that its [config] has. *)
Definition registry_ok (w : factory) : Prop :=
  (∀ r cacheId c cfg,
     instances w !! r = Some (cacheId, c) → config c = Some cfg →
     cfg !! "id" = Some (VStr cacheId))
  ∧ (∀ cacheId r,
       caches w !! cacheId = Some r
       ↔ ∃ c, instances w !! r = Some (cacheId, c) ∧ is_Some (config c)).

(** two instances are made, the first is used and the second destroyed *)
Definition two_caches : factory :=
  factory_run [New (KString "a") ∅;
               New (KString "b") {["capacity" := VNum 3]};
               On 0%nat (Put (KString "k") (VNum 1) None);
               On 1%nat Destroy]
              new_factory.

(** * Properties *)

(** ** Lists of nodes *)

Lemma lst_ref_app l1 l2 prev :
  lst_ref (l1 ++ l2) prev = lst_ref l2 (lst_ref l1 prev).
Proof. revert prev. induction l1 as [|x l1 IH]; intros prev; simpl; auto. Qed.

Lemma lst_ref_snoc l x prev : lst_ref (l ++ [x]) prev = RObj x.
Proof. by rewrite lst_ref_app. Qed.

Lemma hd_ref_app l1 l2 next :
  hd_ref (l1 ++ l2) next = hd_ref l1 (hd_ref l2 next).
Proof. by destruct l1. Qed.

Lemma seg_app h prev l1 l2 next :
  seg h prev (l1 ++ l2) next ↔
  seg h prev l1 (hd_ref l2 next) ∧ seg h (lst_ref l1 prev) l2 next.
Proof.
  revert prev. induction l1 as [|x l1 IH]; intros prev; simpl.
  - tauto.
  - rewrite IH, hd_ref_app. tauto.
Qed.

Lemma seg_frame h h' prev l next :
  (∀ x, x ∈ l → h' !! x = h !! x) →
  seg h prev l next → seg h' prev l next.
Proof.
  revert prev. induction l as [|x l IH]; intros prev Hag; simpl; [done|].
  intros [(e & He & Hp & Hn) Hs]. split.
  - exists e. rewrite Hag by set_solver. done.
  - apply IH; [|done]. intros y Hy. apply Hag. set_solver.
Qed.

Lemma seg_alter_notin h g x prev l next :
  x ∉ l → seg h prev l next → seg (alter g x h) prev l next.
Proof.
  intros Hx. apply seg_frame. intros y Hy.
  apply lookup_alter_ne. intros ->. done.
Qed.

Lemma seg_alter_p_head h r x prev l next :
  x ∉ l → seg h prev (x :: l) next →
  seg (alter (lru.set_p r) x h) r (x :: l) next.
Proof.
  intros Hx [(e & He & Hp & Hn) Hs]. split.
  - exists (lru.set_p r e). rewrite lookup_alter_eq, He. done.
  - by apply seg_alter_notin.
Qed.

Lemma seg_alter_n_last h r x prev l next :
  x ∉ l → seg h prev (l ++ [x]) next →
  seg (alter (lru.set_n r) x h) prev (l ++ [x]) r.
Proof.
  intros Hx. rewrite !seg_app. simpl.
  intros [Hl [(e & He & Hp & Hn) _]]. split.
  - by apply seg_alter_notin.
  - split; [|done]. exists (lru.set_n r e).
    rewrite lookup_alter_eq, He. done.
Qed.

Lemma seg_lookup h prev l next x :
  seg h prev l next → x ∈ l → is_Some (h !! x).
Proof.
  revert prev. induction l as [|y l IH]; intros prev; simpl.
  - intros _ Hx. by apply elem_of_nil in Hx.
  - intros [(e & He & _) Hs] Hx. apply elem_of_cons in Hx as [->|Hx]; eauto.
Qed.

Lemma seg_set_p_hd h r y S' S prev next :
  S = y :: S' → NoDup S → seg h prev S next →
  seg (alter (lru.set_p r) y h) r S next.
Proof.
  intros -> Hnd. apply seg_alter_p_head. by apply NoDup_cons in Hnd as [? _].
Qed.

Lemma seg_set_n_lst h r f S' S prev next :
  S = S' ++ [f] → NoDup S → seg h prev S next →
  seg (alter (lru.set_n r) f h) prev S r.
Proof.
  intros -> Hnd. apply seg_alter_n_last.
  apply NoDup_app in Hnd as (_ & Hd & _). intros Hin. apply (Hd f Hin).
  set_solver.
Qed.

Lemma snoc_cases (l : list loc) : l = [] ∨ ∃ l' x, l = l' ++ [x].
Proof.
  induction l as [|x l _] using rev_ind; [by left|right; eauto].
Qed.

Lemma lst_ref_elem l prev x : lst_ref l prev = RObj x → prev = RObj x ∨ x ∈ l.
Proof.
  destruct (snoc_cases l) as [->|(l' & y & ->)]; simpl; [by left|].
  rewrite lst_ref_snoc. intros [= ->]. right. set_solver.
Qed.

Lemma filter_ne_notin (x : loc) (l : list loc) : x ∉ l → filter (λ y, y ≠ x) l = l.
Proof.
  induction l as [|y l IH]; [done|]. intros Hx.
  apply not_elem_of_cons in Hx as [Hne Hx].
  rewrite filter_cons_True by done. by rewrite IH.
Qed.

Lemma filter_ne_split (x : loc) (l1 l2 : list loc) :
  NoDup (l1 ++ x :: l2) → filter (λ y, y ≠ x) (l1 ++ x :: l2) = l1 ++ l2.
Proof.
  intros Hnd. apply NoDup_app in Hnd as (_ & Hd & Hnd2).
  apply NoDup_cons in Hnd2 as [Hx2 _].
  rewrite filter_app, filter_cons_False by (intros H; by apply H).
  rewrite !filter_ne_notin; [done|done|].
  intros Hin. apply (Hd x Hin). set_solver.
Qed.

Lemma refresh_heap c entry :
  RObj entry ≠ freshEnd c →
  heap (_refresh entry c) =
  alter (lru.set_n RNull) entry
    (_link (RObj entry) (freshEnd c)
       (_link (field_n entry c) (field_p entry c) (heap c))).
Proof.
  intros Hne. unfold _refresh. rewrite decide_True by done.
  destruct c as [sz cfg d lh fe se h ts nt t]. simpl.
  destruct (negb (is_obj se)); [done|]. by destruct (decide (se = RObj entry)).
Qed.

Lemma refresh_freshEnd c entry : freshEnd (_refresh entry c) = RObj entry.
Proof.
  unfold _refresh. destruct (decide (RObj entry ≠ freshEnd c)) as [Hne|Heq].
  - done.
  - by destruct (decide (RObj entry = freshEnd c)).
Qed.

Lemma refresh_staleEnd c entry :
  RObj entry ≠ freshEnd c →
  staleEnd (_refresh entry c) =
  if negb (is_obj (staleEnd c)) then RObj entry
  else if decide (staleEnd c = RObj entry) then field_n entry c
       else staleEnd c.
Proof.
  intros Hne. unfold _refresh. rewrite decide_True by done.
  destruct c as [sz cfg d lh fe se h ts nt t]. simpl.
  destruct (negb (is_obj se)); [done|]. by destruct (decide (se = RObj entry)).
Qed.

Lemma refresh_noop c entry : freshEnd c = RObj entry → _refresh entry c = c.
Proof. intros H. unfold _refresh. by rewrite decide_False by (rewrite H; tauto). Qed.

Lemma link_obj_obj a b h :
  a ≠ b →
  _link (RObj a) (RObj b) h =
  alter (lru.set_n (RObj a)) b (alter (lru.set_p (RObj b)) a h).
Proof. intros Hne. unfold _link. rewrite decide_True by congruence. done. Qed.

Lemma link_obj_null a h :
  _link (RObj a) RNull h = alter (lru.set_p RNull) a h.
Proof. done. Qed.

Lemma link_same r h : _link r r h = h.
Proof. unfold _link. by rewrite decide_False by tauto. Qed.

Lemma seg_single h prev x next e :
  h !! x = Some e → lru.p e = prev → lru.n e = next →
  seg h prev [x] next.
Proof. intros. simpl. split; [by exists e|done]. Qed.

Lemma link_lookup_ne a b h x :
  a ≠ RObj x → b ≠ RObj x → _link a b h !! x = h !! x.
Proof.
  intros Ha Hb. unfold _link. destruct (decide (a ≠ b)); [|done].
  destruct a as [| |a], b as [| |b]; try done;
    rewrite ?lookup_alter_ne by congruence; done.
Qed.

Lemma lst_ref_notin l x : x ∉ l → lst_ref l RNull ≠ RObj x.
Proof. intros Hx H. by apply lst_ref_elem in H as [?|?]. Qed.

Lemma lru_list_intro c l :
  NoDup l → seg (heap c) RNull l RNull →
  staleEnd c = hd_ref l RNull → freshEnd c = lst_ref l RNull →
  lru_list c l.
Proof. by repeat split. Qed.

Lemma refresh_linked c l1 l2 entry :
  lru_list c (l1 ++ entry :: l2) →
  lru_list (_refresh entry c) (l1 ++ l2 ++ [entry]).
Proof.
  intros (Hnd & Hseg & Hst & Hfr).
  destruct (snoc_cases l2) as [->|(l2' & f & ->)].
  - (* entry is the fresh end *)
    rewrite refresh_noop; [by repeat split|].
    by rewrite Hfr, lst_ref_app.
  - (* entry has a next neighbour [y]; [f] is the fresh end *)
    remember (l2' ++ [f]) as S eqn:HSf.
    assert (HfS : f ∈ S).
    { rewrite HSf. apply elem_of_app. right. apply list_elem_of_singleton. done. }
    assert (Hfe : freshEnd c = RObj f).
    { rewrite Hfr, lst_ref_app. simpl. rewrite HSf. by rewrite lst_ref_snoc. }
    pose proof Hnd as Hnd'.
    apply NoDup_app in Hnd as (Hnd1 & Hd1 & Hnd2).
    apply NoDup_cons in Hnd2 as [HeS HndS].
    assert (Hd1' : ∀ x, x ∈ S → x ∉ l1).
    { intros x Hx H. apply (Hd1 _ H). apply elem_of_cons. by right. }
    assert (He1 : entry ∉ l1).
    { intros H. apply (Hd1 _ H). apply elem_of_cons. by left. }
    assert (Hef : entry ≠ f) by (intros ->; done).
    apply seg_app in Hseg as [Hseg1 [(e & He & Hp & Hn) HsegS]].
    destruct S as [|y S'] eqn:HS; [by apply elem_of_nil in HfS|].
    rewrite <- HS in *. simpl in Hn.
    assert (HyS : y ∈ S) by (rewrite HS; apply elem_of_cons; by left).
    assert (Hey : entry ≠ y) by (intros ->; done).
    assert (Hy1 : y ∉ l1) by auto.
    assert (Hf1 : f ∉ l1) by auto.
    assert (Hfne : RObj entry ≠ freshEnd c) by (rewrite Hfe; congruence).
    assert (Hfn : field_n entry c = RObj y).
    { unfold field_n. rewrite He, Hn, HS. done. }
    assert (Hfp : field_p entry c = lst_ref l1 RNull).
    { unfold field_p. by rewrite He. }
    apply lru_list_intro.
    + (* no node twice *)
      assert (Hperm : S ++ [entry] ≡ₚ entry :: S)
        by (symmetry; apply Permutation_cons_append).
      by rewrite Hperm.
    + rewrite refresh_heap, Hfn, Hfp, Hfe by done.
      rewrite (link_obj_obj entry f) by done.
      rewrite (app_assoc l1 S [entry]), seg_app, seg_app, !lst_ref_app.
      change (hd_ref [entry] RNull) with (RObj entry).
      replace (hd_ref S (RObj entry)) with (RObj y) by (by rewrite HS).
      replace (lst_ref S (lst_ref l1 RNull)) with (RObj f)
        by (by rewrite HSf, lst_ref_snoc).
      split; [split|].
      * (* the nodes before entry *)
        do 3 (apply seg_alter_notin; [done|]).
        destruct (snoc_cases l1) as [->|(l1' & z & ->)]; [done|].
        rewrite lst_ref_snoc, link_obj_obj.
        2:{ intros ->. apply Hy1, elem_of_app. right.
            by apply list_elem_of_singleton. }
        eapply (seg_set_n_lst _ _ _ l1'); [done|done|].
        by apply seg_alter_notin.
      * (* the nodes after entry *)
        apply seg_alter_notin; [done|].
        eapply (seg_set_n_lst _ _ _ l2'); [done|done|].
        apply seg_alter_notin; [done|].
        destruct (snoc_cases l1) as [->|(l1' & z & ->)].
        -- simpl. rewrite link_obj_null.
           by eapply (seg_set_p_hd _ _ _ S').
        -- assert (Hz : z ∉ S).
           { intros H. apply (Hd1' _ H), elem_of_app. right.
             by apply list_elem_of_singleton. }
           rewrite lst_ref_snoc, link_obj_obj by (intros ->; done).
           apply seg_alter_notin; [done|].
           by eapply (seg_set_p_hd _ _ _ S').
      * (* entry itself *)
        apply (seg_single _ _ _ _ (lru.set_n RNull (lru.set_p (RObj f) e)));
          [|done|done].
        rewrite lookup_alter_eq, lookup_alter_ne, lookup_alter_eq by done.
        rewrite link_lookup_ne, He; [done|congruence|by apply lst_ref_notin].
    + (* the stale end *)
      rewrite refresh_staleEnd, Hst, Hfn by done.
      destruct l1 as [|x l1]; simpl.
      * rewrite decide_True by done. by rewrite HS.
      * rewrite decide_False; [done|]. intros [= ->]. apply He1.
        apply elem_of_cons. by left.
    + (* the fresh end *)
      by rewrite refresh_freshEnd, !lst_ref_app.
Qed.

Lemma refresh_unlinked c l entry :
  lru_list c l → entry ∉ l → unlinked c entry →
  lru_list (_refresh entry c) (l ++ [entry]).
Proof.
  intros (Hnd & Hseg & Hst & Hfr) Hel (e & He & Hn & Hp).
  assert (Hfne : RObj entry ≠ freshEnd c).
  { rewrite Hfr. intros H. symmetry in H. by apply lst_ref_notin in H. }
  assert (Hfn : field_n entry c = RUndef) by (unfold field_n; by rewrite He).
  assert (Hfp : field_p entry c = RUndef) by (unfold field_p; by rewrite He).
  apply lru_list_intro.
  - apply NoDup_app. split; [done|]. split; [|apply NoDup_singleton].
    intros x Hx Hx'. apply list_elem_of_singleton in Hx' as ->. done.
  - rewrite refresh_heap, Hfn, Hfp, link_same, Hfr by done.
    rewrite seg_app. change (hd_ref [entry] RNull) with (RObj entry).
    destruct (snoc_cases l) as [->|(l' & f & ->)].
    + simpl lst_ref. rewrite link_obj_null. split; [done|].
      apply (seg_single _ _ _ _ (lru.set_n RNull (lru.set_p RNull e)));
        [|done|done].
      by rewrite lookup_alter_eq, lookup_alter_eq, He.
    + assert (Hef : entry ≠ f).
      { intros ->. apply Hel, elem_of_app. right.
        by apply list_elem_of_singleton. }
      rewrite !lst_ref_snoc, link_obj_obj by done. split.
      * apply seg_alter_notin; [done|].
        eapply (seg_set_n_lst _ _ _ l'); [done|done|].
        by apply seg_alter_notin.
      * apply (seg_single _ _ _ _ (lru.set_n RNull (lru.set_p (RObj f) e)));
          [|done|done].
        by rewrite lookup_alter_eq, lookup_alter_ne, lookup_alter_eq, He.
  - rewrite refresh_staleEnd, Hst by done.
    destruct l as [|x l]; simpl; [done|].
    rewrite decide_False; [done|]. intros [= ->]. apply Hel.
    apply elem_of_cons. by left.
  - by rewrite refresh_freshEnd, lst_ref_snoc.
Qed.

Lemma refresh_moves_to_fresh_end c l entry :
  lru_list c l →
  entry ∈ l ∨ (unlinked c entry ∧ entry ∉ l) →
  lru_list (_refresh entry c) (filter (λ x, x ≠ entry) l ++ [entry]).
Proof.
  intros Hl [Hin|[Hun Hnin]].
  - apply list_elem_of_split in Hin as (l1 & l2 & ->).
    rewrite filter_ne_split by apply Hl.
    rewrite <- app_assoc. by apply refresh_linked.
  - rewrite filter_ne_notin by done. by apply refresh_unlinked.
Qed.

(** ** [_refresh] *)

(** C10: [_refresh] moves the node to the fresh end of the list and does
    nothing when the node is the fresh end already; when the node is the
    stale end and another node exists, the stale end is handed to the
    node's neighbour in the direction of the fresh end, which is its [n]
    as read before any relinking (towards the stale side it has none: its
    [p] is null); a sole node, and a new node touched on an empty list, is
    both ends afterwards. *)
Theorem refresh_touch (c : cache) (l : list loc) (entry : loc) :
  lru_list c l →
  entry ∈ l ∨ (unlinked c entry ∧ entry ∉ l) →
  lru_list (_refresh entry c) (filter (λ x, x ≠ entry) l ++ [entry])
  ∧ (freshEnd c = RObj entry → _refresh entry c = c)
  ∧ (∀ y l', l = entry :: y :: l' →
       field_n entry c = RObj y ∧ field_p entry c = RNull
       ∧ staleEnd (_refresh entry c) = RObj y)
  ∧ (l = [entry] ∨ l = [] →
       freshEnd (_refresh entry c) = RObj entry
       ∧ staleEnd (_refresh entry c) = RObj entry).
Proof.
  intros Hl Hin. pose proof (refresh_moves_to_fresh_end c l entry Hl Hin) as Hm.
  split; [done|]. split; [apply refresh_noop|]. split.
  - intros y l' ->. destruct Hl as (Hnd & [(e & He & Hp & Hn) _] & Hst & Hfr).
    assert (Hfn : field_n entry c = RObj y) by (unfold field_n; by rewrite He).
    assert (Hfp : field_p entry c = RNull) by (unfold field_p; by rewrite He).
    split; [done|]. split; [done|].
    rewrite refresh_staleEnd, Hst; simpl.
    + by rewrite decide_True.
    + rewrite Hfr. simpl. intros H. symmetry in H.
      apply NoDup_cons in Hnd as [Hnd _].
      apply lst_ref_elem in H as [H|H]; apply Hnd, elem_of_cons;
        [left; congruence|by right].
  - intros [-> | ->].
    + destruct Hl as (_ & _ & Hst & Hfr). rewrite refresh_noop by done. done.
    + destruct Hm as (_ & _ & Hst & Hfr). simpl in *. done.
Qed.

Lemma two_nodes_list : lru_list two_nodes [0; 1]%nat.
Proof.
  apply lru_list_intro.
  - apply NoDup_cons. split; [by intros [=]%list_elem_of_singleton|].
    apply NoDup_singleton.
  - vm_compute. split; [eexists; split; [reflexivity|done]|].
    split; [eexists; split; [reflexivity|done]|done].
  - reflexivity.
  - reflexivity.
Qed.

Lemma refresh_touch_witness :
  lru_list (_refresh 0%nat two_nodes) [1; 0]%nat
  ∧ field_n 0%nat two_nodes = RObj 1%nat
  ∧ field_p 0%nat two_nodes = RNull
  ∧ staleEnd (_refresh 0%nat two_nodes) = RObj 1%nat.
Proof.
  destruct (refresh_touch two_nodes [0; 1]%nat 0%nat two_nodes_list)
    as (Hmove & _ & Hstale & _).
  { left. apply elem_of_cons. by left. }
  split; [exact Hmove|]. exact (Hstale 1%nat [] eq_refl).
Defined.

(** ** Rules for [preserves] *)

Section Preserves.
Context (R : relation cache) `{!Reflexive R, !Transitive R}.

Lemma preserves_ret {A} (a : A) : preserves R (ret a).
Proof. intros c. simpl. reflexivity. Qed.

Lemma preserves_throw {A} (e : exn) : preserves R (throw (A:=A) e).
Proof. intros c. simpl. reflexivity. Qed.

Lemma preserves_gets {A} (f : cache → A) : preserves R (gets f).
Proof. intros c. simpl. reflexivity. Qed.

Lemma preserves_modify (f : cache → cache) :
  (∀ c, R c (f c)) → preserves R (modify f).
Proof. intros Hf c. simpl. apply Hf. Qed.

Lemma preserves_bind {A B} (m : M A) (k : A → M B) :
  preserves R m → (∀ a, preserves R (k a)) → preserves R (bind m k).
Proof.
  intros Hm Hk c. unfold bind. specialize (Hm c).
  destruct (m c) as [c' [a|e]]; simpl in *; [|done].
  etrans; [exact Hm|apply Hk].
Qed.
End Preserves.

#[local] Instance same_config_refl : Reflexive same_config.
Proof. by intros c. Qed.
#[local] Instance same_config_trans : Transitive same_config.
Proof. intros c1 c2 c3 H1 H2. unfold same_config in *. congruence. Qed.

(** Applies the rules along the structure of a method, case by case. *)
Ltac preserves_step :=
  lazymatch goal with
  | |- preserves _ (bind _ _) => apply preserves_bind; [apply _| |intros ?]
  | |- preserves _ (ret _) => apply preserves_ret; apply _
  | |- preserves _ (throw _) => apply preserves_throw; apply _
  | |- preserves _ (gets _) => apply preserves_gets; apply _
  | |- preserves _ (modify _) => apply preserves_modify; intros ?
  | |- preserves _ (match ?x with _ => _ end) => destruct x
  end.

Lemma refresh_config entry c : config (_refresh entry c) = config c.
Proof.
  unfold _refresh. repeat case_match; done.
Qed.

Lemma remove_config k : preserves same_config (remove k).
Proof.
  unfold remove. repeat preserves_step.
  all: unfold same_config; simpl; by repeat case_match.
Qed.

Lemma clearTimer_config id c : config (clearTimer id c) = config c.
Proof. by destruct id. Qed.

Lemma flush_config c : config (flush c) = config c.
Proof.
  unfold flush. simpl. destruct (data c) as [d|]; [|done].
  apply (map_fold_weak_ind (λ r _, config r = config c)); [done|].
  intros k it m r _ IH. by rewrite clearTimer_config.
Qed.

Lemma lookupOrCreate_config k : preserves same_config (lookupOrCreate k).
Proof. intros c. unfold lookupOrCreate, same_config. by repeat case_match. Qed.

Lemma updateItem_config k f : preserves same_config (updateItem k f).
Proof. intros c. unfold updateItem, same_config. by repeat case_match. Qed.

Lemma itemTimeoutId_config k : preserves same_config (itemTimeoutId k).
Proof. intros c. unfold itemTimeoutId, same_config. by repeat case_match. Qed.

Lemma setTimeout_config a d : preserves same_config (setTimeout a d).
Proof. by intros c. Qed.

Lemma put_config k v o : preserves same_config (put k v o).
Proof.
  unfold put, put_arm, put_evict.
  repeat first
    [ apply lookupOrCreate_config | apply updateItem_config
    | apply itemTimeoutId_config | apply setTimeout_config
    | apply remove_config | preserves_step ].
  all: unfold same_config; simpl;
    rewrite ?refresh_config, ?clearTimer_config; done.
Qed.

Lemma get_config k : preserves same_config (get k).
Proof.
  unfold get. repeat preserves_step.
  all: unfold same_config; simpl; rewrite ?refresh_config; done.
Qed.

Lemma removeAll_config : preserves same_config removeAll.
Proof. unfold removeAll. repeat preserves_step; done. Qed.

Lemma sleep_config dt : preserves same_config (sleep dt).
Proof. unfold sleep. repeat preserves_step; done. Qed.

Lemma fire_config id : preserves same_config (fire id).
Proof.
  unfold fire. repeat first [ apply remove_config | preserves_step ].
  all: unfold same_config; try apply flush_config; done.
Qed.

Lemma info_config : preserves same_config info.
Proof. unfold info. repeat preserves_step; done. Qed.

Lemma exec_config f : f ≠ Destroy → preserves same_config (exec f).
Proof.
  intros Hf. destruct f; simpl; try done; preserves_step;
    eauto using put_config, get_config, remove_config, removeAll_config,
      sleep_config, fire_config, info_config;
    preserves_step.
Qed.

Lemma run_config fs c : Destroy ∉ fs → config (run fs c) = config c.
Proof.
  revert c. induction fs as [|f fs IH]; intros c Hfs; [done|].
  apply not_elem_of_cons in Hfs as [Hf Hfs]. simpl.
  rewrite IH by done. by apply exec_config.
Qed.

(** ** [info] *)

(** C9, as the code has it: as long as the instance is not destroyed,
    [info] returns a copy of [config] with the current [size] added.  Its
    fields are the id, the capacity (the configured one, or
    [Number.MAX_VALUE]), every option given to the constructor with its
    value, the size and, when a flush interval is configured, also
    [cacheFlushIntervalId], the handle of the pending interval timer; there
    is no other field. *)
Theorem info_snapshot (cacheId : string) (options : gmap string jsval)
    (c0 : cache) (fs : list call) :
  AdvancedCache cacheId options = Return c0 →
  Destroy ∉ fs →
  info_is_snapshot cacheId options c0 (run fs c0).
Proof.
  intros Hnew Hfs. unfold AdvancedCache in Hnew.
  destruct (_ || _); [done|].
  assert (Hcfi : ∀ m : gmap string jsval,
    getprop (<["capacity" := VNum MAX_VALUE]> (<["id" := VStr cacheId]> m))
      "cacheFlushInterval" = getprop m "cacheFlushInterval"
    ∧ getprop (<["id" := VStr cacheId]> m) "cacheFlushInterval"
      = getprop m "cacheFlushInterval").
  { intros m. unfold getprop. by rewrite !lookup_insert_ne. }
  assert (Hinfo : ∀ cfg, config c0 = Some cfg →
    info (run fs c0)
    = (run fs c0, Return (<["size" := VNum (size (run fs c0))]> cfg))).
  { intros cfg Hcfg. unfold info, bind, gets, ret. simpl.
    by rewrite run_config, Hcfg. }
  assert (Hcap : truthy (getprop (<["id":=VStr cacheId]> options) "capacity")
                 = true → "capacity" ∈ dom options).
  { unfold getprop. rewrite lookup_insert_ne by done. intros Ht.
    apply elem_of_dom. destruct (options !! "capacity"); [eauto|done]. }
  assert (Hcapv : getprop (<["id":=VStr cacheId]> options) "capacity"
                  = getprop options "capacity").
  { unfold getprop. by rewrite lookup_insert_ne. }
  assert (Hcapl : truthy (getprop options "capacity") = true →
                  options !! "capacity" = Some (getprop options "capacity")).
  { unfold getprop. by destruct (options !! "capacity"). }
  assert (Hother : ∀ name : string,
    name ∉ ({["id"; "capacity"; "cacheFlushIntervalId"]} : gset string) →
    name ≠ "id" ∧ name ≠ "capacity" ∧ name ≠ "cacheFlushIntervalId").
  { intros name. rewrite !elem_of_union, !elem_of_singleton. tauto. }
  unfold info_is_snapshot. rewrite Hcapv in *.
  destruct (truthy (getprop options "capacity"));
    rewrite ?(proj1 (Hcfi _)), ?(proj2 (Hcfi _)) in Hnew;
    destruct (truthy (getprop options "cacheFlushInterval"));
    simpl in Hnew; injection Hnew as <-; simpl;
    eexists _, _; (split; [reflexivity|]); (split; [by apply Hinfo|]);
    (split; [reflexivity|]); rewrite !dom_insert_L.
  all: split;
    [ try specialize (Hcap eq_refl); apply set_eq; intros x;
      rewrite ?elem_of_union, ?elem_of_singleton, ?elem_of_empty;
      intuition (subst; auto) |].
  all: split; [by simplify_map_eq|].
  all: split; [try rewrite <- Hcapl by done; by simplify_map_eq|].
  all: split;
    [ intros name (? & ? & ?)%Hother; by rewrite ?lookup_insert_ne by done |].
  all: intros; try done.
  all: exists 1; eexists; by simplify_map_eq.
Qed.

Lemma info_snapshot_witness :
  info_is_snapshot "c" {["cacheFlushInterval" := VNum 1000]} flush_1000
    (run [Put (KString "a") (VNum 1) None; Get (KString "a")] flush_1000).
Proof.
  apply (info_snapshot "c" {["cacheFlushInterval" := VNum 1000]} flush_1000).
  - vm_compute. reflexivity.
  - apply not_elem_of_cons. split; [discriminate|].
    apply not_elem_of_cons. split; [discriminate|]. apply not_elem_of_nil.
Defined.

(** C9, as stated, fails: the result of [info] on an instance with a flush
    interval has the field [cacheFlushIntervalId], the handle of the
    interval timer. *)
Lemma info_leaks_flush_handle : ¬ info_fields_only flush_1000.
Proof.
  intros (o & Ho & Hdom).
  assert (Hin : "cacheFlushIntervalId" ∈ dom o).
  { apply elem_of_dom. exists (VNum 1).
    injection Ho as <-. vm_compute. reflexivity. }
  apply Hdom in Hin.
  rewrite !elem_of_union, !elem_of_singleton in Hin.
  intuition discriminate.
Qed.

(** ** [destroy] *)




(** ** The first statement of [put] *)


Lemma lookupOrCreate_known key c h l :
  lruHash c = Some h → h !! prop key = Some l →
  lookupOrCreate key c = (c, Return l).
Proof. intros Hh Hl. unfold lookupOrCreate. by rewrite Hh, Hl. Qed.

(** ** Regular states

    On an instance without a flush interval, calls that are [clean] keep
    the list, the index, the store and the counter in agreement; this is
    where the properties that fail above do hold. *)

Lemma link_bridge h l1 l2 a b :
  NoDup (l1 ++ l2) → seg h RNull l1 a → seg h b l2 RNull →
  seg (_link (hd_ref l2 RNull) (lst_ref l1 RNull) h) RNull (l1 ++ l2) RNull.
Proof.
  intros Hnd H1 H2. apply NoDup_app in Hnd as (Hnd1 & Hd & Hnd2).
  apply seg_app.
  destruct (snoc_cases l1) as [->|(l1' & z & ->)]; destruct l2 as [|y l2'].
  - done.
  - simpl hd_ref. simpl lst_ref. rewrite link_obj_null. split; [done|].
    by eapply (seg_set_p_hd _ _ _ l2').
  - rewrite lst_ref_snoc. simpl hd_ref. split; [|done].
    unfold _link. rewrite decide_True by done.
    by eapply (seg_set_n_lst _ _ _ l1').
  - assert (Hz : z ∈ l1' ++ [z]).
    { apply elem_of_app. right. by apply list_elem_of_singleton. }
    assert (Hy : y ∈ y :: l2') by (apply elem_of_cons; by left).
    assert (Hyz : y ≠ z) by (intros ->; by apply (Hd z)).
    rewrite lst_ref_snoc. simpl hd_ref. rewrite link_obj_obj by done. split.
    + eapply (seg_set_n_lst _ _ _ l1'); [done|done|].
      apply seg_alter_notin; [|done]. intros H. by apply (Hd y).
    + apply seg_alter_notin; [by apply Hd|].
      by eapply (seg_set_p_hd _ _ _ l2').
Qed.

Lemma remove_unlink_heap x c :
  heap (remove_unlink x c) = _link (field_n x c) (field_p x c) (heap c).
Proof.
  unfold remove_unlink. destruct c as [sz cfg d lh fe se h ts nt t].
  simpl. by repeat case_match.
Qed.

Lemma remove_unlink_freshEnd x c :
  freshEnd (remove_unlink x c)
  = if decide (RObj x = freshEnd c) then field_p x c else freshEnd c.
Proof.
  unfold remove_unlink. destruct c as [sz cfg d lh fe se h ts nt t].
  simpl. by repeat case_match.
Qed.

Lemma remove_unlink_staleEnd x c :
  staleEnd (remove_unlink x c)
  = if decide (RObj x = staleEnd c) then field_n x c else staleEnd c.
Proof.
  unfold remove_unlink. destruct c as [sz cfg d lh fe se h ts nt t].
  simpl. by repeat case_match.
Qed.

Lemma remove_unlink_list c l1 x l2 :
  lru_list c (l1 ++ x :: l2) → lru_list (remove_unlink x c) (l1 ++ l2).
Proof.
  intros (Hnd & Hseg & Hst & Hfr).
  apply seg_app in Hseg as [Hseg1 [(e & He & Hp & Hn) Hseg2]].
  assert (Hnd' : NoDup (l1 ++ l2)).
  { apply NoDup_app in Hnd as (Hnd1 & Hd & Hnd2).
    apply NoDup_cons in Hnd2 as [_ Hnd2]. apply NoDup_app.
    split; [done|]. split; [|done]. intros y Hy Hy'. apply (Hd y Hy).
    apply elem_of_cons. by right. }
  assert (Hx1 : x ∉ l1).
  { apply NoDup_app in Hnd as (_ & Hd & _). intros H. apply (Hd x H).
    apply elem_of_cons. by left. }
  assert (Hx2 : x ∉ l2).
  { apply NoDup_app in Hnd as (_ & _ & Hnd2).
    by apply NoDup_cons in Hnd2 as [? _]. }
  assert (Hfn : field_n x c = hd_ref l2 RNull).
  { unfold field_n. by rewrite He. }
  assert (Hfp : field_p x c = lst_ref l1 RNull).
  { unfold field_p. by rewrite He. }
  apply lru_list_intro.
  - done.
  - rewrite remove_unlink_heap, Hfn, Hfp. by eapply link_bridge.
  - rewrite remove_unlink_staleEnd, Hst, Hfn, !hd_ref_app.
    destruct l1 as [|z l1]; simpl.
    + by rewrite decide_True.
    + rewrite decide_False; [done|]. intros [= ->]. apply Hx1.
      apply elem_of_cons. by left.
  - rewrite remove_unlink_freshEnd, Hfr, Hfp, !lst_ref_app. simpl.
    destruct (snoc_cases l2) as [->|(l2' & f & ->)]; simpl.
    + by rewrite decide_True.
    + rewrite !lst_ref_snoc. rewrite decide_False; [done|]. intros [= ->].
      apply Hx2, elem_of_app. right. by apply list_elem_of_singleton.
Qed.

Lemma remove_found c h d k x :
  lruHash c = Some h → data c = Some d → h !! prop k = Some x →
  remove k c
  = (set_size Z.pred
       (set_data (Some (delete (prop k) d))
          (set_lruHash (Some (delete (prop k) h)) (remove_unlink x c))),
     Return VUndef).
Proof.
  intros Hh Hd Hx. unfold remove, remove_unlink, bind, gets, modify, ret.
  destruct c as [sz cfg d' lh fe se hp ts nt t]. simpl in *; subst.
  rewrite Hx. simpl.
  destruct (decide (RObj x = fe)); simpl;
    destruct (decide (RObj x = se)); simpl; reflexivity.
Qed.

Lemma remove_missing c h k :
  lruHash c = Some h → h !! prop k = None → remove k c = (c, Return VUndef).
Proof.
  intros Hh Hx. unfold remove, bind, gets, ret. simpl. by rewrite Hh, Hx.
Qed.

Lemma get_found c h d k x it :
  lruHash c = Some h → data c = Some d → h !! prop k = Some x →
  d !! prop k = Some it →
  get k c = (_refresh x c, Return (item.value it)).
Proof.
  intros Hh Hd Hx Hit. unfold get, bind, gets, modify, ret. simpl.
  rewrite Hh, Hx. simpl.
  assert (Hd' : data (_refresh x c) = Some d).
  { rewrite <- Hd. unfold _refresh.
    destruct c as [sz cfg d' lh fe se hp ts nt t]. simpl.
    destruct (decide (RObj x ≠ fe)); [|done]. simpl.
    destruct (negb (is_obj se)); [done|].
    by destruct (decide (se = RObj x)). }
  by rewrite Hd', Hit.
Qed.

Lemma get_missing c h k :
  lruHash c = Some h → h !! prop k = None → get k c = (c, Return VUndef).
Proof.
  intros Hh Hx. unfold get, bind, gets, ret. simpl. by rewrite Hh, Hx.
Qed.

Lemma refresh_frame x c :
  size (_refresh x c) = size c ∧ config (_refresh x c) = config c
  ∧ data (_refresh x c) = data c ∧ lruHash (_refresh x c) = lruHash c
  ∧ timers (_refresh x c) = timers c
  ∧ nextTimer (_refresh x c) = nextTimer c ∧ now (_refresh x c) = now c.
Proof.
  unfold _refresh. destruct c as [sz cfg d' lh fe se hp ts nt t]. simpl.
  destruct (decide (RObj x ≠ fe)); [|done]. simpl.
  destruct (negb (is_obj se)); [done|].
  by destruct (decide (se = RObj x)).
Qed.

Lemma alter_key (f : lru.entry → lru.entry) x y (h : gmap loc lru.entry) :
  (∀ e, lru.key (f e) = lru.key e) →
  lru.key <$> (alter f x h !! y) = lru.key <$> (h !! y).
Proof.
  intros Hf. destruct (decide (x = y)) as [->|Hne].
  - rewrite lookup_alter_eq. destruct (h !! y); simpl; [by rewrite Hf|done].
  - by rewrite lookup_alter_ne.
Qed.

Lemma link_key a b h y :
  lru.key <$> (_link a b h !! y) = lru.key <$> (h !! y).
Proof.
  unfold _link. destruct (decide (a ≠ b)); [|done].
  destruct a as [| |a], b as [| |b]; rewrite ?alter_key; done.
Qed.

Lemma field_key_heap y c c' :
  lru.key <$> (heap c' !! y) = lru.key <$> (heap c !! y) →
  field_key y c' = field_key y c.
Proof.
  unfold field_key. destruct (heap c' !! y), (heap c !! y); simpl; congruence.
Qed.

Lemma refresh_key x y c : field_key y (_refresh x c) = field_key y c.
Proof.
  apply field_key_heap.
  destruct (decide (RObj x = freshEnd c)) as [Heq|Hne].
  - by rewrite refresh_noop.
  - rewrite refresh_heap by done. by rewrite alter_key, !link_key.
Qed.

Lemma lru_list_ext c c' l :
  heap c' = heap c → staleEnd c' = staleEnd c → freshEnd c' = freshEnd c →
  lru_list c l → lru_list c' l.
Proof.
  intros Hh Hs Hf (Hnd & Hseg & Hst & Hfr).
  apply lru_list_intro; congruence.
Qed.

Lemma lru_list_heap c l x : lru_list c l → x ∈ l → is_Some (heap c !! x).
Proof. intros (_ & Hseg & _) Hx. by eapply seg_lookup. Qed.

Lemma indexed_key c l h k x : indexed c l h → h !! k = Some x → x ∈ l.
Proof. intros Hi Hx. by apply Hi in Hx as [? _]. Qed.

Lemma length_moved (l1 l2 : list loc) x :
  length (l1 ++ l2 ++ [x]) = length (l1 ++ x :: l2).
Proof. rewrite !length_app. simpl. lia. Qed.

Lemma elem_of_moved (l1 l2 : list loc) x y :
  y ∈ l1 ++ l2 ++ [x] ↔ y ∈ l1 ++ x :: l2.
Proof.
  rewrite !elem_of_app, !elem_of_cons, elem_of_nil. tauto.
Qed.

(** [get] and [put] of a key that has its node: the node moves to the
    fresh end and nothing else changes. *)
Lemma inv_refresh c l1 x l2 :
  inv c (l1 ++ x :: l2) → inv (_refresh x c) (l1 ++ l2 ++ [x]).
Proof.
  intros (Hl & d & h & Hd & Hh & Hi & Hdom & Hsz & Hsize).
  destruct (refresh_frame x c) as (Fsz & _ & Fd & Fh & _).
  split; [by apply refresh_linked|].
  exists d, h. rewrite Fd, Fh, Fsz, length_moved.
  split; [done|]. split; [done|]. split; [|done].
  intros k y. rewrite elem_of_moved, refresh_key. apply Hi.
Qed.

(** [remove] of a key that has its node. *)
Lemma inv_unlink c l1 x l2 d h k :
  inv c (l1 ++ x :: l2) → data c = Some d → lruHash c = Some h →
  h !! k = Some x →
  inv (set_size Z.pred
         (set_data (Some (delete k d))
            (set_lruHash (Some (delete k h)) (remove_unlink x c))))
      (l1 ++ l2).
Proof.
  intros (Hl & d' & h' & Hd' & Hh' & Hi & Hdom & Hsz & Hsize) Hd Hh Hx.
  assert (d' = d) as -> by congruence. assert (h' = h) as -> by congruence.
  assert (Hnd : NoDup (l1 ++ x :: l2)) by apply Hl.
  assert (Hkx : prop (field_key x c) = k) by (by apply Hi in Hx as [_ ?]).
  assert (Hlen : length (l1 ++ x :: l2) = S (length (l1 ++ l2))).
  { rewrite !length_app. simpl. lia. }
  set (c' := set_size _ _).
  assert (Hkey : ∀ y, field_key y c' = field_key y c).
  { intros y. apply field_key_heap.
    change (heap c') with (heap (remove_unlink x c)).
    by rewrite remove_unlink_heap, link_key. }
  assert (Hsize' : size c' = Z.pred (size c)).
  { unfold c', remove_unlink.
    destruct c as [sz cfg d'' lh fe se hp ts nt t]. simpl.
    destruct (decide (RObj x = fe)); simpl;
      destruct (decide (RObj x = se)); simpl; reflexivity. }
  split.
  { eapply lru_list_ext; [| | |by apply remove_unlink_list]; done. }
  exists (delete k d), (delete k h).
  split; [done|]. split; [done|]. split; [|split; [|split]].
  - intros k' y. rewrite lookup_delete_Some, Hkey. split.
    + intros [Hne Hy]. apply Hi in Hy as [Hin Hk']. split; [|done].
      apply elem_of_app. apply elem_of_app in Hin as [?|Hin]; [by left|].
      apply elem_of_cons in Hin as [->|?]; [congruence|by right].
    + intros [Hin Hk'].
      assert (Hin' : y ∈ l1 ++ x :: l2).
      { apply elem_of_app. apply elem_of_app in Hin as [?|?]; [by left|].
        right. apply elem_of_cons. by right. }
      assert (Hy : h !! k' = Some y) by (by apply Hi).
      split; [|done]. intros ->.
      assert (y = x) as -> by congruence.
      apply NoDup_app in Hnd as (_ & Hdis & Hnd2).
      apply NoDup_cons in Hnd2 as [Hx2 _].
      apply elem_of_app in Hin as [Hin|Hin]; [|done].
      apply (Hdis x Hin). apply elem_of_cons. by left.
  - by rewrite !dom_delete_L, Hdom.
  - rewrite map_size_delete_Some by eauto. rewrite Hsz. lia.
  - rewrite Hsize'. lia.
Qed.

Lemma put_stored_frame k v x d c :
  heap (put_stored k v x d c) = heap (_refresh x c)
  ∧ staleEnd (put_stored k v x d c) = staleEnd (_refresh x c)
  ∧ freshEnd (put_stored k v x d c) = freshEnd (_refresh x c)
  ∧ lruHash (put_stored k v x d c) = lruHash c
  ∧ config (put_stored k v x d c) = config c
  ∧ timers (put_stored k v x d c) = timers c
  ∧ data (put_stored k v x d c)
    = Some (<[prop k := item.Item v VUndef VUndef]> d)
  ∧ size (put_stored k v x d c)
    = if decide (is_Some (d !! prop k)) then size c else Z.succ (size c).
Proof.
  destruct (refresh_frame x c) as (Fsz & Fcfg & Fd & Fh & Fts & _).
  unfold put_stored. destruct (decide (is_Some (d !! prop k))); simpl;
    rewrite ?Fsz, ?Fcfg, ?Fh, ?Fts; done.
Qed.

Lemma put_stored_key k v x d c y :
  field_key y (put_stored k v x d c) = field_key y c.
Proof.
  rewrite <- (refresh_key x y c). apply field_key_heap.
  by rewrite (proj1 (put_stored_frame k v x d c)).
Qed.

(** [put] of a key that has its node *)
Lemma inv_put_stored_known c l1 x l2 d h k v :
  inv c (l1 ++ x :: l2) → data c = Some d → lruHash c = Some h →
  h !! prop k = Some x →
  inv (put_stored k v x d c) (l1 ++ l2 ++ [x]).
Proof.
  intros Hinv Hd Hh Hx.
  destruct (inv_refresh _ _ _ _ Hinv)
    as (Hl & d' & h' & Hd' & Hh' & Hi & Hdom & Hsz & Hsize).
  destruct (refresh_frame x c) as (Fsz & _ & Fd & Fh & _).
  destruct (put_stored_frame k v x d c)
    as (Sh & Sse & Sfe & Slh & _ & _ & Sd & Ssz).
  assert (d' = d) as -> by congruence. assert (h' = h) as -> by congruence.
  assert (Hkd : is_Some (d !! prop k)).
  { apply elem_of_dom. rewrite Hdom. apply elem_of_dom. eauto. }
  split; [by eapply lru_list_ext|].
  eexists _, h. split; [exact Sd|]. split; [congruence|].
  split; [|split; [|split]].
  - intros k' y. rewrite put_stored_key, <- (refresh_key x y c). apply Hi.
  - rewrite dom_insert_L, Hdom.
    assert (prop k ∈ dom h) by (apply elem_of_dom; eauto).
    apply set_eq. intros z. rewrite elem_of_union, elem_of_singleton.
    split; [intros [->|?]; done|tauto].
  - done.
  - rewrite Ssz, decide_True by done. by rewrite <- Fsz.
Qed.

(** [put] of a key that has no node: [lookupOrCreate] makes one *)
Lemma inv_put_stored_new c l d h k v :
  inv c l → data c = Some d → lruHash c = Some h → h !! prop k = None →
  let x := fresh (dom (heap c)) in
  inv (put_stored k v x d
         (set_lruHash (Some (<[prop k := x]> h))
            (set_heap <[x := lru.Entry k RUndef RUndef]> c)))
      (l ++ [x]).
Proof.
  intros (Hl & d' & h' & Hd' & Hh' & Hi & Hdom & Hsz & Hsize) Hd Hh Hk x.
  assert (d' = d) as -> by congruence. assert (h' = h) as -> by congruence.
  set (c1 := set_lruHash _ _).
  assert (Hfresh : heap c !! x = None) by apply not_elem_of_dom, is_fresh.
  assert (Hxl : x ∉ l).
  { intros Hx. apply (lru_list_heap _ _ _ Hl) in Hx as [e He]. congruence. }
  assert (Hl1 : lru_list c1 l).
  { destruct Hl as (Hnd & Hseg & Hst & Hfr). apply lru_list_intro; try done.
    eapply seg_frame; [|exact Hseg]. intros y Hy. unfold c1. simpl.
    apply lookup_insert_ne. intros ->. done. }
  assert (Hun : unlinked c1 x).
  { eexists. unfold c1. simpl. by rewrite lookup_insert_eq. }
  destruct (put_stored_frame k v x d c1)
    as (Sh & Sse & Sfe & Slh & _ & _ & Sd & Ssz).
  assert (Hkd : d !! prop k = None).
  { apply not_elem_of_dom. rewrite Hdom. by apply not_elem_of_dom. }
  assert (Hkey : ∀ y, field_key y (put_stored k v x d c1)
                      = if decide (y = x) then k else field_key y c).
  { intros y. rewrite put_stored_key. unfold field_key, c1. simpl.
    destruct (decide (y = x)) as [->|Hne].
    - by rewrite lookup_insert_eq.
    - by rewrite lookup_insert_ne. }
  split.
  { eapply lru_list_ext; [exact Sh|exact Sse|exact Sfe|].
    by apply refresh_unlinked. }
  eexists _, _. split; [exact Sd|]. split; [exact Slh|].
  split; [|split; [|split]].
  - intros k' y. rewrite Hkey, elem_of_app, list_elem_of_singleton.
    destruct (decide (y = x)) as [->|Hne].
    + split.
      * intros Hy. split; [by right|].
        destruct (decide (prop k = k')) as [?|Hkk]; [done|].
        rewrite lookup_insert_ne in Hy by done.
        by apply (indexed_key _ _ _ _ _ Hi) in Hy.
      * intros [_ <-]. apply lookup_insert_eq.
    + split.
      * intros Hy. destruct (decide (prop k = k')) as [<-|Hkk].
        -- rewrite lookup_insert_eq in Hy. congruence.
        -- rewrite lookup_insert_ne in Hy by done.
           apply Hi in Hy as [? ?]. split; [by left|done].
      * intros [[Hy|?] Hk']; [|done].
        assert (Hhy : h !! k' = Some y) by (by apply Hi).
        rewrite lookup_insert_ne; [done|]. intros <-. congruence.
  - by rewrite !dom_insert_L, Hdom.
  - rewrite map_size_insert_None by done. rewrite Hsz, length_app. simpl. lia.
  - rewrite Ssz, decide_False by (rewrite Hkd; by intros [? ?]).
    unfold c1. simpl. rewrite Hsize, length_app. simpl. lia.
Qed.

Lemma put_clean_eq c c1 x d cfg k v o :
  isString k = true → v ≠ VUndef → ¬ bad_maxAge o →
  lookupOrCreate k c = (c1, Return x) →
  data c1 = Some d → config c1 = Some cfg →
  put k v o c
  = (put_arm k o cfg ;; put_evict cfg ;; ret v) (put_stored k v x d c1).
Proof.
  intros Hstr Hv Hage Hlook Hd Hcfg.
  destruct (refresh_frame x c1) as (Fsz & Fcfg & Fd & Fh & Fts & _).
  assert (Hval : (if truthy (optionsMaxAge o)
                  then if _validateMaxAge (optionsMaxAge o)
                       then throw ErrValidation else ret ()
                  else ret ()) c1 = (c1, Return tt)).
  { destruct (truthy (optionsMaxAge o)) eqn:Ht; [|done].
    destruct (_validateMaxAge (optionsMaxAge o)) eqn:Hva; [|done].
    destruct Hage. by split. }
  unfold put. unfold bind at 1. rewrite Hlook, Hstr.
  change (negb true) with false. cbv beta iota.
  unfold bind at 1. rewrite Hval.
  unfold bind at 1, modify at 1.
  replace (isUndefined v) with false by (by destruct v).
  unfold bind at 1, gets at 1. rewrite Fd, Hd.
  unfold bind at 1.
  assert (Hst : ∀ A (m : M A),
    (let (c', o0) := (if decide (is_Some (d !! prop k)) then ret ()
                      else modify (set_size Z.succ)) (_refresh x c1) in
     match o0 with
     | Return _ =>
         (modify (set_data (Some (<[prop k:=item.Item v VUndef VUndef]> d)));;
          m) c'
     | Throw e => (c', Throw e)
     end) = m (put_stored k v x d c1)).
  { intros A m. unfold put_stored.
    by destruct (decide (is_Some (d !! prop k))). }
  rewrite Hst. unfold bind at 1, gets at 1.
  rewrite (proj1 (proj2 (proj2 (proj2 (proj2 (put_stored_frame k v x d c1)))))).
  rewrite Hcfg. reflexivity.
Qed.

Lemma alter_value (f : item.t → item.t) x y (d : gmap string item.t) :
  (∀ it, item.value (f it) = item.value it) →
  item.value <$> (alter f x d !! y) = item.value <$> (d !! y).
Proof.
  intros Hf. destruct (decide (x = y)) as [->|Hne].
  - rewrite lookup_alter_eq. destruct (d !! y); simpl; [by rewrite Hf|done].
  - by rewrite lookup_alter_ne.
Qed.

Lemma expiry_only_insert (ts : gmap Z timer) id tm k :
  act tm = ARemove k →
  (∀ i t, ts !! i = Some t → ∃ k', act t = ARemove k') →
  ∀ i t, <[id := tm]> ts !! i = Some t → ∃ k', act t = ARemove k'.
Proof.
  intros Hact He i t. destruct (decide (id = i)) as [->|Hne].
  - rewrite lookup_insert_eq. intros [= <-]. eauto.
  - rewrite lookup_insert_ne by done. apply He.
Qed.

Lemma expiry_only_delete (ts : gmap Z timer) id :
  (∀ i t, ts !! i = Some t → ∃ k', act t = ARemove k') →
  ∀ i t, delete id ts !! i = Some t → ∃ k', act t = ARemove k'.
Proof. intros He i t [_ Hi]%lookup_delete_Some. by eapply He. Qed.

Lemma put_arm_spec c d k o cfg it :
  data c = Some d → d !! prop k = Some it →
  ∃ c', put_arm k o cfg c = (c', Return tt) ∧ same_shape c c'.
Proof.
  intros Hd Hit. unfold put_arm.
  destruct (truthy (getprop cfg "maxAge") || truthy (optionsMaxAge o)).
  2:{ exists c. split; [done|]. unfold same_shape. repeat split; try done.
      exists d, d. done. }
  destruct c as [sz cfg' d' lh fe se hp ts nt t]. simpl in Hd. subst d'.
  unfold bind, gets, updateItem, itemTimeoutId, setTimeout, modify, ret.
  simpl. rewrite lookup_alter_eq, Hit. simpl.
  destruct (truthy (item.timeoutId it)); [destruct (item.timeoutId it)|];
    simpl; (eexists; split; [reflexivity|]);
    unfold same_shape, expiry_only; simpl.
  all: do 6 (split; [done|]).
  all: split;
    [ eexists _, _; split; [reflexivity|]; split; [reflexivity|];
      intros key; by rewrite !alter_value |].
  all: intros He; eapply expiry_only_insert; [reflexivity|].
  all: try done.
  by apply expiry_only_delete.
Qed.

Lemma same_values_dom (d d' : gmap string item.t) :
  (∀ key, item.value <$> d' !! key = item.value <$> d !! key) →
  dom d' = dom d.
Proof.
  intros Hv. apply set_eq. intros key. rewrite !elem_of_dom.
  specialize (Hv key). destruct (d' !! key), (d !! key); simpl in Hv;
    try done; split; eauto.
Qed.

Lemma inv_same_shape c c' l : inv c l → same_shape c c' → inv c' l.
Proof.
  intros (Hl & d & h & Hd & Hh & Hi & Hdom & Hsz & Hsize)
         (Sh & Sse & Sfe & Slh & _ & Ssz & (d0 & d' & Hd0 & Hd' & Hv) & _).
  assert (d0 = d) as -> by congruence.
  split; [by eapply lru_list_ext|].
  exists d', h. split; [done|]. split; [congruence|].
  split; [|split; [|split]].
  - intros k x. rewrite (field_key_heap x c c') by (by rewrite Sh). apply Hi.
  - by rewrite (same_values_dom _ _ Hv).
  - done.
  - congruence.
Qed.

Lemma put_evict_within c cfg cap :
  getprop cfg "capacity" = VNum cap → size c ≤ cap →
  put_evict cfg c = (c, Return VUndef).
Proof.
  intros Hcap Hsz. unfold put_evict, bind, gets. rewrite Hcap.
  unfold exceeds. by rewrite (proj2 (Z.ltb_ge cap (size c))).
Qed.

Lemma put_evict_over c cfg cap y l d h :
  getprop cfg "capacity" = VNum cap → cap < size c →
  inv c (y :: l) → data c = Some d → lruHash c = Some h →
  put_evict cfg c
  = (set_size Z.pred
       (set_data (Some (delete (prop (field_key y c)) d))
          (set_lruHash (Some (delete (prop (field_key y c)) h))
             (remove_unlink y c))),
     Return VUndef)
  ∧ h !! prop (field_key y c) = Some y.
Proof.
  intros Hcap Hsz Hinv Hd Hh.
  destruct Hinv as (Hl & d' & h' & Hd' & Hh' & Hi & _).
  assert (h' = h) as -> by congruence.
  assert (Hy : h !! prop (field_key y c) = Some y).
  { apply Hi. split; [apply elem_of_cons; by left|done]. }
  split; [|done].
  unfold put_evict. unfold bind at 1, gets at 1. rewrite Hcap.
  unfold exceeds. rewrite (proj2 (Z.ltb_lt cap (size c))) by done.
  unfold bind at 1, gets at 1.
  destruct Hl as (_ & _ & Hst & _). rewrite Hst. simpl hd_ref. cbv iota.
  unfold bind at 1, gets at 1.
  by apply remove_found.
Qed.

Lemma bind_return {A B} (m : M A) (k : A → M B) c c' a :
  m c = (c', Return a) → bind m k c = k a c'.
Proof. intros H. unfold bind. by rewrite H. Qed.

Lemma remove_unlink_frame x c :
  size (remove_unlink x c) = size c ∧ config (remove_unlink x c) = config c
  ∧ data (remove_unlink x c) = data c
  ∧ lruHash (remove_unlink x c) = lruHash c
  ∧ timers (remove_unlink x c) = timers c.
Proof.
  unfold remove_unlink. destruct c as [sz cfg d' lh fe se hp ts nt t]. simpl.
  destruct (decide (RObj x = fe)); simpl;
    destruct (decide (RObj x = se)); simpl; done.
Qed.

(** The end of [put], from the state in which the value is stored: the
    expiry is armed; within the capacity that is all, and over it the
    stale end [y] of the list is removed with its entry. *)
Lemma put_tail c l k (v : jsval) o cfg cap d it :
  inv c l → data c = Some d → d !! prop k = Some it →
  getprop cfg "capacity" = VNum cap →
  ∃ (ca : cache) (da : gmap string item.t),
    same_shape c ca ∧ data ca = Some da
    ∧ (size c ≤ cap →
       (put_arm k o cfg ;; put_evict cfg ;; ret v) c = (ca, Return v))
    ∧ (cap < size c → ∀ y l', l = y :: l' →
       ∃ c' : cache,
         (put_arm k o cfg ;; put_evict cfg ;; ret v) c = (c', Return v)
         ∧ inv c' l'
         ∧ data c' = Some (delete (prop (field_key y c)) da)
         ∧ size c' = Z.pred (size c)
         ∧ config c' = config c ∧ timers c' = timers ca
         ∧ lruHash c' = delete (prop (field_key y c)) <$> lruHash c
         ∧ is_Some (lruHash c ≫= (.!! prop (field_key y c)))).
Proof.
  intros Hinv Hd Hit Hcap.
  destruct (put_arm_spec c d k o cfg it Hd Hit) as (ca & Harm & Hsh).
  pose proof (inv_same_shape _ _ _ Hinv Hsh) as Hinva.
  destruct Hsh as (Sh & Sse & Sfe & Slh & Scfg & Ssz & (d0 & da & Hd0 & Hda & Hv) & Sex).
  exists ca, da. split.
  { repeat split; try done. by exists d0, da. }
  split; [done|]. split.
  - intros Hsz. rewrite (bind_return _ _ _ _ _ Harm).
    unfold bind. rewrite (put_evict_within ca cfg cap) by (done || lia). done.
  - intros Hsz y l' ->.
    destruct Hinv as (_ & _ & h & _ & Hh & _).
    assert (Hha : lruHash ca = Some h) by congruence.
    destruct (put_evict_over ca cfg cap y l' da h) as [Hev Hy];
      [done|lia|done|done|done|].
    assert (Hky : field_key y ca = field_key y c).
    { apply field_key_heap. by rewrite Sh. }
    rewrite Hky in Hev, Hy.
    exists (set_size Z.pred
              (set_data (Some (delete (prop (field_key y c)) da))
                 (set_lruHash (Some (delete (prop (field_key y c)) h))
                    (remove_unlink y ca)))).
    rewrite (bind_return _ _ _ _ _ Harm).
    rewrite (bind_return _ _ _ _ _ Hev). split; [reflexivity|].
    destruct (remove_unlink_frame y ca) as (Fsz & Fcfg & _ & _ & Fts).
    split; [by apply (inv_unlink ca [] y l')|].
    split; [done|].
    cbn [size config timers lruHash set_size set_data set_lruHash].
    rewrite Fsz, Fcfg, Fts, Ssz, Scfg, Hh. simpl. rewrite Hy. eauto 10.
Qed.

Lemma lookupOrCreate_new c h k :
  lruHash c = Some h → h !! prop k = None →
  lookupOrCreate k c
  = (set_lruHash (Some (<[prop k := fresh (dom (heap c))]> h))
       (set_heap <[fresh (dom (heap c)) := lru.Entry k RUndef RUndef]> c),
     Return (fresh (dom (heap c)))).
Proof. intros Hh Hk. unfold lookupOrCreate. by rewrite Hh, Hk. Qed.

(** A clean [put] in a regular state returns the value and stores it.
    When the key is new and the size is at the capacity, exactly one
    entry goes, the entry of the stale end of the list as it was before the
    call; in every other case no entry goes. *)
Lemma put_spec c l k v o d cfg cap :
  inv c l → expiry_only c → data c = Some d → config c = Some cfg →
  getprop cfg "capacity" = VNum cap → 1 ≤ cap → size c ≤ cap →
  isString k = true → v ≠ VUndef → ¬ bad_maxAge o →
  ∃ c' l' d' x,
    put k v o c = (c', Return v)
    ∧ inv c' l' ∧ expiry_only c' ∧ config c' = Some cfg ∧ size c' ≤ cap
    ∧ data c' = Some d' ∧ item.value <$> d' !! prop k = Some v
    ∧ lruHash c' ≫= (.!! prop k) = Some x
    ∧ (prop k ∈ dom d ∨ size c < cap →
       l' = filter (λ y, y ≠ x) l ++ [x] ∧ dom d' = {[prop k]} ∪ dom d)
    ∧ (prop k ∉ dom d → size c = cap →
       ∃ y l0, l = y :: l0 ∧ staleEnd c = RObj y ∧ l' = l0 ++ [x]
               ∧ prop (field_key y c) ∈ dom d
               ∧ dom d' = ({[prop k]} ∪ dom d) ∖ {[prop (field_key y c)]}).
Proof.
  intros Hinv Hex Hd Hcfg Hcap Hcap1 Hsz Hstr Hv Hage.
  pose proof Hinv as (Hl & d0 & h & Hd0 & Hh & Hi & Hdom & Hszh & Hsize).
  assert (d0 = d) as -> by congruence.
  destruct (h !! prop k) as [x|] eqn:Hk.
  - (* the key has its node *)
    assert (Hx : x ∈ l) by (by eapply indexed_key).
    apply list_elem_of_split in Hx as (l1 & l2 & ->).
    assert (Hkd : prop k ∈ dom d).
    { rewrite Hdom. apply elem_of_dom. eauto. }
    pose proof (inv_put_stored_known c l1 x l2 d h k v Hinv Hd Hh Hk) as Hinvs.
    destruct (put_stored_frame k v x d c)
      as (Sh & Sse & Sfe & Slh & Scfg & Sts & Sd & Ssz).
    rewrite decide_True in Ssz by (by apply elem_of_dom).
    destruct (put_tail _ _ k v o cfg cap _ _ Hinvs Sd (lookup_insert_eq _ _ _)
                Hcap) as (ca & da & Hsh & Hda & Hin & _).
    pose proof (inv_same_shape _ _ _ Hinvs Hsh) as Hinva.
    destruct Hsh as (Ah & Ase & Afe & Alh & Acfg & Asz & (d1 & d2 & Hd1 & Hd2 & Hval) & Aex).
    assert (d1 = <[prop k := item.Item v VUndef VUndef]> d) as -> by congruence.
    assert (d2 = da) as -> by congruence.
    exists ca, (l1 ++ l2 ++ [x]), da, x.
    split.
    { rewrite (put_clean_eq c c x d cfg k v o); try done.
      - apply Hin. lia.
      - by eapply lookupOrCreate_known. }
    split; [done|]. split; [by apply Aex; intros i tm; rewrite Sts; apply Hex|].
    split; [congruence|]. split; [lia|]. split; [done|].
    split; [by rewrite Hval, lookup_insert_eq|].
    split; [by rewrite Alh, Slh, Hh; simpl|].
    split.
    + intros _. rewrite filter_ne_split by apply Hl.
      rewrite <- app_assoc. split; [done|].
      by rewrite (same_values_dom _ _ Hval), dom_insert_L.
    + intros Hnk. done.
  - (* the key is new *)
    assert (Hkd : prop k ∉ dom d).
    { rewrite Hdom. by apply not_elem_of_dom. }
    set (x := fresh (dom (heap c))).
    set (c1 := set_lruHash (Some (<[prop k := x]> h))
                 (set_heap <[x := lru.Entry k RUndef RUndef]> c)).
    pose proof (inv_put_stored_new c l d h k v Hinv Hd Hh Hk) as Hinvs.
    cbv zeta in Hinvs. fold x c1 in Hinvs.
    assert (Hxl : x ∉ l).
    { intros Hx. apply (lru_list_heap _ _ _ Hl) in Hx as [e He].
      pose proof (is_fresh (dom (heap c))) as Hf. fold x in Hf.
      apply Hf, elem_of_dom. eauto. }
    destruct (put_stored_frame k v x d c1)
      as (Sh & Sse & Sfe & Slh & Scfg & Sts & Sd & Ssz).
    rewrite decide_False in Ssz by (by rewrite <- elem_of_dom).
    change (size c1) with (size c) in Ssz.
    change (lruHash c1) with (Some (<[prop k := x]> h)) in Slh.
    change (config c1) with (config c) in Scfg.
    change (timers c1) with (timers c) in Sts.
    destruct (put_tail _ _ k v o cfg cap _ _ Hinvs Sd (lookup_insert_eq _ _ _)
                Hcap) as (ca & da & Hsh & Hda & Hin & Hover).
    pose proof (inv_same_shape _ _ _ Hinvs Hsh) as Hinva.
    destruct Hsh as (Ah & Ase & Afe & Alh & Acfg & Asz & (d1 & d2 & Hd1 & Hd2 & Hval) & Aex).
    assert (d1 = <[prop k := item.Item v VUndef VUndef]> d) as -> by congruence.
    assert (d2 = da) as -> by congruence.
    assert (Hput : put k v o c
      = (put_arm k o cfg;; put_evict cfg;; ret v) (put_stored k v x d c1)).
    { apply put_clean_eq; try done. by apply lookupOrCreate_new. }
    assert (Hexs : expiry_only (put_stored k v x d c1)).
    { intros i tm. rewrite Sts. apply Hex. }
    destruct (decide (size c < cap)) as [Hlt|Hge].
    + (* within the capacity *)
      exists ca, (l ++ [x]), da, x.
      split; [rewrite Hput; apply Hin; lia|].
      split; [done|]. split; [by apply Aex|].
      split; [congruence|]. split; [lia|]. split; [done|].
      split; [by rewrite Hval, lookup_insert_eq|].
      split; [by rewrite Alh, Slh; simpl; rewrite lookup_insert_eq|].
      split; [|intros; lia].
      intros _. rewrite filter_ne_notin by done. split; [done|].
      by rewrite (same_values_dom _ _ Hval), dom_insert_L.
    + (* over the capacity: the stale end goes *)
      assert (Heq : size c = cap) by lia.
      destruct l as [|y l0].
      { simpl in Hsize. lia. }
      destruct (Hover ltac:(lia) y (l0 ++ [x]) eq_refl)
        as (c' & Hrun & Hinv' & Hd' & Hsz' & Hcfg' & Hts' & Hlh' & _).
      assert (Hyx : y ≠ x).
      { intros ->. apply Hxl, elem_of_cons. by left. }
      assert (Hky : field_key y (put_stored k v x d c1) = field_key y c).
      { rewrite put_stored_key. unfold field_key, c1. simpl.
        by rewrite lookup_insert_ne. }
      rewrite Hky in Hd', Hlh'.
      assert (Hhy : h !! prop (field_key y c) = Some y).
      { apply Hi. split; [apply elem_of_cons; by left|done]. }
      assert (Hkk : prop (field_key y c) ≠ prop k) by congruence.
      exists c', (l0 ++ [x]), (delete (prop (field_key y c)) da), x.
      split; [by rewrite Hput|]. split; [done|].
      split; [intros i tm; rewrite Hts'; by apply Aex|].
      split; [congruence|]. split; [lia|]. split; [done|].
      split; [by rewrite lookup_delete_ne, Hval, lookup_insert_eq|].
      split.
      { rewrite Hlh', Slh. simpl.
        by rewrite lookup_delete_ne, lookup_insert_eq. }
      split; [intros [?|?]; [done|lia]|].
      intros _ _. exists y, l0. split; [done|].
      split; [apply Hl|]. split; [done|].
      split; [rewrite Hdom; apply elem_of_dom; eauto|].
      by rewrite dom_delete_L, (same_values_dom _ _ Hval), dom_insert_L.
Qed.

Lemma get_spec c l k d :
  regular c l → data c = Some d →
  ∃ c' l', get k c = (c', Return (default VUndef (item.value <$> d !! prop k)))
           ∧ regular c' l' ∧ data c' = Some d.
Proof.
  intros (Hinv & Hb & Hex) Hd.
  pose proof Hinv as (Hl & d0 & h & Hd0 & Hh & Hi & Hdom & Hszh & Hsize).
  assert (d0 = d) as -> by congruence.
  destruct (h !! prop k) as [x|] eqn:Hk.
  - assert (Hx : x ∈ l) by (by eapply indexed_key).
    apply list_elem_of_split in Hx as (l1 & l2 & ->).
    assert (Hkd : is_Some (d !! prop k)).
    { apply elem_of_dom. rewrite Hdom. apply elem_of_dom. eauto. }
    destruct Hkd as [it Hit].
    destruct (refresh_frame x c) as (Fsz & Fcfg & Fd & Fh & Fts & _).
    exists (_refresh x c), (l1 ++ l2 ++ [x]).
    rewrite (get_found c h d k x it), Hit by done.
    split; [done|]. split; [|congruence].
    split; [by apply inv_refresh|]. split.
    + destruct Hb as (cfg & cap & ? & ? & ? & ?).
      exists cfg, cap. rewrite Fcfg, Fsz. done.
    + intros i tm. rewrite Fts. apply Hex.
  - exists c, l. rewrite (get_missing c h k) by done.
    assert (d !! prop k = None) as ->.
    { apply not_elem_of_dom. rewrite Hdom. by apply not_elem_of_dom. }
    done.
Qed.

Lemma remove_spec c l k d :
  regular c l → data c = Some d →
  ∃ c' l', remove k c = (c', Return VUndef) ∧ regular c' l'
           ∧ data c' = Some (delete (prop k) d).
Proof.
  intros (Hinv & Hb & Hex) Hd.
  pose proof Hinv as (Hl & d0 & h & Hd0 & Hh & Hi & Hdom & Hszh & Hsize).
  assert (d0 = d) as -> by congruence.
  destruct (h !! prop k) as [x|] eqn:Hk.
  - assert (Hx : x ∈ l) by (by eapply indexed_key).
    apply list_elem_of_split in Hx as (l1 & l2 & ->).
    destruct (remove_unlink_frame x c) as (Fsz & Fcfg & _ & _ & Fts).
    eexists _, (l1 ++ l2). rewrite (remove_found c h d k x) by done.
    split; [done|]. split; [|done].
    split; [by apply inv_unlink|]. split.
    + destruct Hb as (cfg & cap & ? & ? & ? & ?). exists cfg, cap.
      cbn [size config set_size set_data set_lruHash]. rewrite Fcfg, Fsz.
      repeat split; try done. lia.
    + intros i tm. cbn [timers set_size set_data set_lruHash].
      rewrite Fts. apply Hex.
  - exists c, l. rewrite (remove_missing c h k) by done.
    rewrite delete_id; [done|].
    apply not_elem_of_dom. rewrite Hdom. by apply not_elem_of_dom.
Qed.

Lemma removeAll_spec c l :
  regular c l →
  ∃ c', removeAll c = (c', Return VUndef) ∧ regular c' []
        ∧ data c' = Some ∅.
Proof.
  intros (Hinv & (cfg & cap & Hcfg & Hcap & Hcap1 & Hsz) & Hex).
  eexists. split; [reflexivity|]. split; [|done].
  split; [|split].
  - split; [by apply lru_list_intro; [apply NoDup_nil| | |]|].
    exists ∅, ∅. split; [done|]. split; [done|]. split; [|done].
    intros k x. rewrite lookup_empty, elem_of_nil. split; [done|tauto].
  - exists cfg, cap. simpl. repeat split; try done. lia.
  - done.
Qed.

Lemma fire_spec c l id :
  regular c l → ∃ c' l', fire id c = (c', Return VUndef) ∧ regular c' l'.
Proof.
  intros Hreg. unfold fire. unfold bind at 1, gets at 1.
  unfold bind at 1, gets at 1.
  destruct (timers c !! id) as [tm|] eqn:Htm; [|by exists c, l].
  destruct (decide (due tm ≤ now c)); [|by exists c, l].
  destruct Hreg as (Hinv & Hb & Hex).
  destruct (Hex id tm Htm) as [k Hk]. rewrite Hk.
  unfold bind at 1, modify at 1.
  set (c1 := set_timers _ c).
  assert (Hreg1 : regular c1 l).
  { split; [|split].
    - destruct Hinv as (Hl & d & h & ?). split; [by eapply lru_list_ext|].
      by exists d, h.
    - done.
    - unfold c1, expiry_only. destruct (period tm); simpl.
      + apply expiry_only_insert with (k := k); [done|apply Hex].
      + apply expiry_only_delete, Hex. }
  destruct Hinv as (_ & d & _ & Hd & _).
  destruct (remove_spec c1 l k d Hreg1 Hd) as (c' & l' & Hrm & Hreg' & _).
  eauto.
Qed.

Lemma sleep_spec c l dt :
  regular c l → ∃ c', sleep dt c = (c', Return VUndef) ∧ regular c' l.
Proof.
  intros (Hinv & Hb & Hex). eexists. split; [reflexivity|].
  split; [|done]. destruct Hinv as (Hl & d & h & ?).
  split; [by eapply lru_list_ext|]. by exists d, h.
Qed.

Lemma put_regular c l k v o :
  regular c l → clean (Put k v o) →
  ∃ c' l', put k v o c = (c', Return v) ∧ regular c' l'
           ∧ ∃ c'', get k c' = (c'', Return v).
Proof.
  intros (Hinv & (cfg & cap & Hcfg & Hcap & Hcap1 & Hsz) & Hex)
         (Hstr & Hv & Hage).
  pose proof Hinv as (_ & d & _ & Hd & _).
  destruct (put_spec c l k v o d cfg cap) as
    (c' & l' & d' & x & Hput & Hinv' & Hex' & Hcfg' & Hsz' & Hd' & Hval & _);
    try done.
  assert (Hreg' : regular c' l').
  { split; [done|]. split; [|done]. by exists cfg, cap. }
  exists c', l'. split; [done|]. split; [done|].
  destruct (get_spec c' l' k d' Hreg' Hd') as (c'' & _ & Hget & _).
  rewrite Hval in Hget. eauto.
Qed.

Lemma exec_regular f c l :
  clean f → regular c l →
  ∃ c' l' r, exec f c = (c', Return r) ∧ regular c' l'.
Proof.
  intros Hf Hreg. destruct f as [k v o|k|k| | | |dt|id]; simpl.
  - destruct (put_regular c l k v o Hreg Hf) as (c' & l' & Hput & Hreg' & _).
    exists c', l', (Val v). by rewrite (bind_return _ _ _ _ _ Hput).
  - pose proof Hreg as ((_ & d & _ & Hd & _) & _).
    destruct (get_spec c l k d Hreg Hd) as (c' & l' & Hget & Hreg' & _).
    eexists c', l', _. by rewrite (bind_return _ _ _ _ _ Hget).
  - pose proof Hreg as ((_ & d & _ & Hd & _) & _).
    destruct (remove_spec c l k d Hreg Hd) as (c' & l' & Hrm & Hreg' & _).
    eexists c', l', _. by rewrite (bind_return _ _ _ _ _ Hrm).
  - destruct (removeAll_spec c l Hreg) as (c' & Hrm & Hreg' & _).
    eexists c', [], _. by rewrite (bind_return _ _ _ _ _ Hrm).
  - done.
  - eexists c, l, _. split; [reflexivity|done].
  - destruct (sleep_spec c l dt Hreg) as (c' & Hsl & Hreg').
    eexists c', l, _. by rewrite (bind_return _ _ _ _ _ Hsl).
  - destruct (fire_spec c l id Hreg) as (c' & l' & Hfi & Hreg').
    eexists c', l', _. by rewrite (bind_return _ _ _ _ _ Hfi).
Qed.

Lemma run_regular fs c l :
  Forall clean fs → regular c l →
  (∃ l', regular (run fs c) l')
  ∧ Forall (λ r, ∃ a, r = Return a) (results fs c).
Proof.
  intros Hfs. revert c l. induction Hfs as [|f fs Hf Hfs IH]; intros c l Hreg.
  - simpl. split; [eauto|constructor].
  - destruct (exec_regular f c l Hf Hreg) as (c' & l' & r & Hex & Hreg').
    simpl. rewrite Hex. simpl. destruct (IH c' l' Hreg') as [Hrun Hres].
    split; [done|]. constructor; eauto.
Qed.

Lemma regular_consistent c l : regular c l → consistent c.
Proof.
  intros ((Hl & d & h & Hd & Hh & Hi & Hdom & Hszh & Hsize) & _).
  exists d, l. split; [done|]. split; [done|]. split.
  - rewrite Hdom. apply set_eq. intros k.
    rewrite elem_of_dom, elem_of_list_to_set, list_elem_of_fmap. split.
    + intros [x Hx]. apply Hi in Hx as [Hx Hk].
      exists (field_key x c). split; [done|].
      apply list_elem_of_fmap. eauto.
    + intros (key & -> & Hkey). apply list_elem_of_fmap in Hkey as (x & -> & Hx).
      exists x. by apply Hi.
  - rewrite Hsize, <- Hszh.
    by rewrite <- (size_dom (D:=gset string) d), Hdom, size_dom.
Qed.

Lemma MAX_VALUE_positive : 1 ≤ MAX_VALUE.
Proof. by vm_compute. Qed.

Lemma constructor_regular cacheId options c0 :
  AdvancedCache cacheId options = Return c0 →
  truthy (getprop options "cacheFlushInterval") = false →
  regular c0 [].
Proof.
  intros Hnew Hfl. unfold AdvancedCache in Hnew.
  destruct (_validateCapacity _) eqn:Hvc; [done|]. simpl in Hnew.
  destruct (_ || _); [done|].
  set (cfg0 := <["id" := VStr cacheId]> options) in *.
  assert (Hcfi : ∀ m : gmap string jsval,
    getprop (<["capacity" := VNum MAX_VALUE]> (<["id" := VStr cacheId]> m))
      "cacheFlushInterval" = getprop m "cacheFlushInterval"
    ∧ getprop (<["id" := VStr cacheId]> m) "cacheFlushInterval"
      = getprop m "cacheFlushInterval").
  { intros m. unfold getprop. by rewrite !lookup_insert_ne. }
  assert (Hempty : ∀ cfg, inv (Cache 0 (Some cfg) (Some ∅) (Some ∅) RNull RNull ∅ ∅ 1 0) []).
  { intros cfg. split; [by apply lru_list_intro; [apply NoDup_nil| | |]|].
    exists ∅, ∅. split; [done|]. split; [done|]. split; [|done].
    intros k x. rewrite lookup_empty, elem_of_nil. split; [done|tauto]. }
  unfold _validateCapacity, _validate in Hvc. fold cfg0 in Hvc.
  destruct (truthy (getprop cfg0 "capacity")) eqn:Hcap.
  - unfold cfg0 in Hnew. rewrite (proj2 (Hcfi _)), Hfl in Hnew.
    injection Hnew as <-. split; [apply Hempty|]. split; [|done].
    unfold getprop in Hcap. rewrite Hcap in Hvc.
    destruct (default VUndef (cfg0 !! "capacity")) as [| | |cap| |] eqn:Hc;
      try done. simpl in Hcap, Hvc.
    exists cfg0, cap. split; [done|]. split; [by unfold getprop; rewrite Hc|].
    simpl. apply negb_true_iff in Hcap. apply Z.eqb_neq in Hcap.
    apply Z.ltb_ge in Hvc. lia.
  - unfold cfg0 in Hnew. rewrite (proj1 (Hcfi _)), Hfl in Hnew.
    injection Hnew as <-. split; [apply Hempty|]. split; [|done].
    eexists _, MAX_VALUE. split; [done|].
    split; [by unfold getprop; rewrite lookup_insert_eq|].
    split; [apply MAX_VALUE_positive|]. simpl.
    pose proof MAX_VALUE_positive. lia.
Qed.

(** ** [put] with a bad key or a bad max age *)




















(** On an instance made without a flush interval, a sequence of clean
    calls (puts with a string key and a value, gets, removes, removeAll,
    expiry timers that run) whose keys name no inherited member never
    throws and ends in a state where the keys of the store are the keys of
    the list, the size is the number of entries, and the size is within the
    capacity. *)
Theorem clean_runs_consistent (cacheId : string)
    (options : gmap string jsval) (c0 : cache) (fs : list call) :
  AdvancedCache cacheId options = Return c0 →
  truthy (getprop options "cacheFlushInterval") = false →
  Forall clean fs → Forall own_call fs →
  consistent (run fs c0) ∧ bounded (run fs c0)
  ∧ Forall (λ r, ∃ a, r = Return a) (results fs c0).
Proof.
  intros Hnew Hfl Hfs _.
  pose proof (constructor_regular _ _ _ Hnew Hfl) as Hreg0.
  destruct (run_regular fs c0 [] Hfs Hreg0) as [[l Hreg] Hres].
  split; [by eapply regular_consistent|]. split; [apply Hreg|done].
Qed.

(** In a regular state, [get] of a key right after a clean [put] of it
    returns the value, and [get] right after [remove] returns undefined. *)
Theorem get_after_put_or_remove (c : cache) (l : list loc) (k : jskey)
    (v : jsval) (o : option jsval) :
  regular c l →
  (clean (Put k v o) →
   ∃ c' c'', put k v o c = (c', Return v) ∧ get k c' = (c'', Return v))
  ∧ (∃ c' c'', remove k c = (c', Return VUndef)
               ∧ get k c' = (c'', Return VUndef)).
Proof.
  intros Hreg. split.
  - intros Hclean.
    destruct (put_regular c l k v o Hreg Hclean) as (c' & _ & ? & _ & c'' & ?).
    eauto.
  - pose proof Hreg as ((_ & d & _ & Hd & _) & _).
    destruct (remove_spec c l k d Hreg Hd) as (c' & l' & Hrm & Hreg' & Hd').
    destruct (get_spec c' l' k _ Hreg' Hd') as (c'' & _ & Hget & _).
    rewrite lookup_delete_eq in Hget. eauto.
Qed.

(** ** Where the code departs from what it is meant to do

    Three slips take an instance out of the regular states: a [put]
    without a value makes a node for a key that has no entry, the callback
    of the flush interval does not reset [size], and no removal cancels the
    expiry timer of the entry it removes ([put] does not cancel the one it
    replaces either). *)

#[local] Instance same_timers_refl : Reflexive same_timers.
Proof. by intros c. Qed.
#[local] Instance same_timers_trans : Transitive same_timers.
Proof. intros c1 c2 c3 H1 H2. unfold same_timers in *. congruence. Qed.

Lemma remove_timers k : preserves same_timers (remove k).
Proof.
  unfold remove. repeat preserves_step.
  all: unfold same_timers; simpl; by repeat case_match.
Qed.

Lemma removeAll_timers : preserves same_timers removeAll.
Proof. unfold removeAll. repeat preserves_step; done. Qed.

Lemma flush_size c : size (flush c) = size c.
Proof.
  unfold flush. simpl. destruct (data c) as [d|]; [|done].
  apply (map_fold_weak_ind (λ r _, size r = size c)); [done|].
  intros k it m r _ IH. by destruct (item.timeoutId it).
Qed.

(** C1 fails on the code.  With capacity 1, a key "g" is put without a
    value, which makes a node for it but no entry; then "a" and "b" are put.
    The put of "b" takes the size to 2 and evicts the stale end, which is
    the node of "g": no entry is removed, the store keeps the two entries
    "a" and "b", and the size is counted down to 1. *)
Theorem eviction_of_valueless_key_removes_no_entry :
  let c2 := run (take 2 ghost_then_two) capacity_one in
  let c3 := run ghost_then_two capacity_one in
  results ghost_then_two capacity_one
  = [Return (Val VUndef); Return (Val (VNum 1)); Return (Val (VNum 2))]
  ∧ config c3 = Some {["capacity" := VNum 1; "id" := VStr "c"]}
  ∧ staleEnd c2 = RObj 0%nat
  ∧ field_key 0%nat c2 = KString "g"
  ∧ data c2 = Some {["a" := item.Item (VNum 1) VUndef VUndef]}
  ∧ lruHash c3 = Some {["a" := 1%nat; "b" := 2%nat]}
  ∧ data c3 = Some {["a" := item.Item (VNum 1) VUndef VUndef;
                     "b" := item.Item (VNum 2) VUndef VUndef]}
  ∧ size c3 = 1.
Proof. vm_compute. repeat split. Qed.

(** C2 fails on the code.  [put] stores a new item object before it looks
    for an old [timeoutId], so it never finds one and never cancels.  With
    maxAge 100, "x" is put at time 0 and put again at time 50: at time 100
    both timers are pending, the first still due at 100, the second at 150.
    The entry is there, and is removed once the host runs the first timer:
    it does not survive its first deadline. *)
Theorem overwrite_leaves_old_timer :
  let c := run overwrite_at_50 max_age_100 in
  now c = 100
  ∧ timers c = {[1 := Timer 100 None (ARemove (KString "x"));
                 2 := Timer 150 None (ARemove (KString "x"))]}
  ∧ results [Get (KString "x")] c = [Return (Val (VNum 2))]
  ∧ results [Fire 1; Get (KString "x")] c
    = [Return (Val VUndef); Return (Val VUndef)].
Proof. vm_compute. repeat split. Qed.

(** C3 fails on the code.  [remove] and [removeAll] never touch the
    timers; only the callback of the flush interval cancels them.  "x" is
    put with a max age of 100 and removed, and its timer stays pending; "x"
    is put again without any max age, and at time 100 the timer of the
    first put removes the new entry. *)
Theorem removal_leaves_timer_armed :
  (∀ k, preserves same_timers (remove k))
  ∧ preserves same_timers removeAll
  ∧ timers (run (take 2 remove_then_put) (mk "c" ∅))
    = {[1 := Timer 100 None (ARemove (KString "x"))]}
  ∧ timers (run [Put (KString "x") (VNum 1) (Some (VNum 100)); RemoveAll]
              (mk "c" ∅))
    = {[1 := Timer 100 None (ARemove (KString "x"))]}
  ∧ results [Get (KString "x")] (run remove_then_put (mk "c" ∅))
    = [Return (Val (VNum 2))]
  ∧ results [Fire 1; Get (KString "x")] (run remove_then_put (mk "c" ∅))
    = [Return (Val VUndef); Return (Val VUndef)].
Proof.
  split; [apply remove_timers|]. split; [apply removeAll_timers|].
  vm_compute. repeat split.
Qed.

(** C4 fails on the code.  The callback of the flush interval empties
    [data] and [lruHash] and resets both ends, and leaves [size] as it is;
    [removeAll] sets it to 0.  After one put and one flush the store is
    empty and the size, as [info] reports it, is 1. *)
Theorem flush_keeps_size :
  (∀ c, size (flush c) = size c)
  ∧ (∀ c, size (fst (removeAll c)) = 0)
  ∧ let c := run put_then_flush flush_1000 in
    data c = Some ∅ ∧ lruHash c = Some ∅ ∧ size c = 1
    ∧ (∃ o, snd (info c) = Return o ∧ o !! "size" = Some (VNum 1))
    ∧ results [Get (KString "a")] c = [Return (Val VUndef)].
Proof.
  split; [apply flush_size|]. split; [done|].
  vm_compute. repeat split. eexists. split; reflexivity.
Qed.

Lemma lru_list_stale c l x :
  lru_list c l → staleEnd c = RObj x → x ∈ l.
Proof.
  intros (_ & _ & Hst & _) Hx. rewrite Hx in Hst.
  destruct l as [|y l]; [done|]. injection Hst as ->.
  apply elem_of_cons. by left.
Qed.

(** C5 fails on the code.  After a put without a value on a new
    instance the list has a node for the key and the store has no entry
    for it; a remove of that key then counts the size down to -1.  After a
    put and a flush the store is empty and the size is 1. *)
Theorem store_list_size_disagree :
  let c := run put_undefined (mk "c" ∅) in
  data c = Some ∅ ∧ lruHash c = Some {["k" := 0%nat]} ∧ lru_list c [0%nat]
  ∧ keys_of c [0%nat] = [KString "k"]
  ∧ ¬ consistent c
  ∧ size (run (put_undefined ++ [Remove (KString "k")]) (mk "c" ∅)) = -1
  ∧ ¬ consistent (run put_then_flush flush_1000).
Proof.
  assert (Hl : lru_list (run put_undefined (mk "c" ∅)) [0%nat]).
  { apply lru_list_intro; [apply NoDup_singleton| |done|done].
    vm_compute. split; [|done]. eexists. split; [reflexivity|done]. }
  split; [done|]. split; [done|]. split; [exact Hl|]. split; [done|].
  split; [|split; [done|]].
  - intros (d & l & Hd & Hll & Hdom & _).
    change (Some ∅ = Some d) in Hd.
    injection Hd as <-. rewrite dom_empty_L in Hdom.
    assert (H0 : 0%nat ∈ l) by (by apply (lru_list_stale _ _ _ Hll)).
    assert (Hk : "k" ∈ (list_to_set
              (prop <$> keys_of (run put_undefined (mk "c" ∅)) l)
              : gset string)).
    { apply elem_of_list_to_set, list_elem_of_fmap. exists (KString "k").
      split; [done|]. apply list_elem_of_fmap. by exists 0%nat. }
    rewrite <- Hdom in Hk. by apply not_elem_of_empty in Hk.
  - intros (d & l & Hd & _ & _ & Hsz).
    change (Some ∅ = Some d) in Hd. injection Hd as <-.
    vm_compute in Hsz. discriminate Hsz.
Qed.

(** C8 fails on the code.  A put without a value makes a node for a key
    that has none, and [get] of that key finds the node, looks for
    [data[key].value] and throws a TypeError; it does not return
    undefined. *)
Theorem get_after_put_undefined_throws :
  results (put_undefined ++ [Get (KString "k")]) (mk "c" ∅)
  = [Return (Val VUndef); Throw TypeError].
Proof. vm_compute. reflexivity. Qed.

(** ** More on the methods, in any state and in regular states *)

Lemma full_two_regular : regular full_two [0; 1]%nat.
Proof.
  split; [split|split].
  - apply lru_list_intro.
    + apply NoDup_cons. split; [by intros [=]%list_elem_of_singleton|].
      apply NoDup_singleton.
    + vm_compute. split; [eexists; split; [reflexivity|done]|].
      split; [eexists; split; [reflexivity|done]|done].
    + reflexivity.
    + reflexivity.
  - exists {["a" := item.Item (VNum 1) VUndef VUndef;
             "b" := item.Item (VNum 2) VUndef VUndef]},
           {["a" := 0%nat; "b" := 1%nat]}.
    split; [by vm_compute|]. split; [by vm_compute|].
    split; [|split; [|split]]; [|by vm_compute..].
    intros k x. rewrite lookup_insert_Some, lookup_singleton_Some.
    rewrite !elem_of_cons, elem_of_nil. split.
    + intros [[<- <-]|[_ [<- <-]]]; split; auto.
    + intros [[->|[->|[]]] <-]; [left|right]; by vm_compute.
  - eexists _, 2. split; [by vm_compute|]. split; [by vm_compute|].
    split; [lia|]. by vm_compute.
  - intros id tm Hid. by vm_compute in Hid.
Qed.

Lemma clean_put_value k v : clean (Put (KString k) (VNum v) None).
Proof. split; [done|]. split; [done|]. by intros [? _]. Qed.

Lemma clean_runs_consistent_witness :
  let fs := [Put (KString "a") (VNum 1) None; Put (KString "b") (VNum 2) None;
             Put (KString "c") (VNum 3) None; Get (KString "b");
             Remove (KString "c"); RemoveAll] in
  consistent (run fs capacity_one) ∧ bounded (run fs capacity_one)
  ∧ Forall (λ r, ∃ a, r = Return a) (results fs capacity_one).
Proof.
  apply (clean_runs_consistent "c" {["capacity" := VNum 1]}).
  - by vm_compute.
  - reflexivity.
  - repeat (apply Forall_cons; split; [first [apply clean_put_value|exact I]|]).
    apply Forall_nil_2.
  - repeat (apply Forall_cons; split; [first [exact I|by vm_compute]|]).
    apply Forall_nil_2.
Defined.

Lemma get_after_put_or_remove_witness :
  (∃ c' c'', put (KString "z") (VNum 7) None full_two = (c', Return (VNum 7))
             ∧ get (KString "z") c' = (c'', Return (VNum 7)))
  ∧ (∃ c' c'', remove (KString "z") full_two = (c', Return VUndef)
               ∧ get (KString "z") c' = (c'', Return VUndef)).
Proof.
  destruct (get_after_put_or_remove full_two [0; 1]%nat (KString "z")
              (VNum 7) None full_two_regular) as [Hput Hrm].
  split; [apply Hput, clean_put_value|exact Hrm].
Defined.



(** [remove], lines 299 to 317: taking out the node of a key leaves the
    other nodes linked in the order they had, whatever the store holds for
    the key. *)
Theorem remove_takes_node_out (c : cache) (l : list loc)
    (h : gmap string loc) (d : gmap string item.t) (k : jskey) (x : loc) :
  lru_list c l → lruHash c = Some h → data c = Some d →
  h !! prop k = Some x → x ∈ l →
  ∃ c', remove k c = (c', Return VUndef)
        ∧ lru_list c' (filter (λ y, y ≠ x) l)
        ∧ lruHash c' = Some (delete (prop k) h)
        ∧ data c' = Some (delete (prop k) d)
        ∧ size c' = size c - 1.
Proof.
  intros Hl Hh Hd Hx Hin.
  apply list_elem_of_split in Hin as (l1 & l2 & ->).
  rewrite filter_ne_split by apply Hl.
  eexists. split; [by apply remove_found|].
  destruct (remove_unlink_frame x c) as (Fsz & _).
  split; [|split; [done|split; [done|]]].
  - eapply lru_list_ext; [| | |by apply remove_unlink_list]; done.
  - cbn [size set_size set_data set_lruHash]. rewrite Fsz. lia.
Qed.

Lemma remove_takes_node_out_witness :
  ∃ c', remove (KString "a") full_two = (c', Return VUndef)
        ∧ lru_list c' [1%nat] ∧ size c' = 1.
Proof.
  destruct (remove_takes_node_out full_two [0; 1]%nat
              {["a" := 0%nat; "b" := 1%nat]}
              {["a" := item.Item (VNum 1) VUndef VUndef;
                "b" := item.Item (VNum 2) VUndef VUndef]}
              (KString "a") 0%nat)
    as (c' & Hrm & Hl & _ & _ & Hsz).
  - apply full_two_regular.
  - by vm_compute.
  - by vm_compute.
  - by vm_compute.
  - apply elem_of_cons. by left.
  - exists c'. split; [done|]. split; [exact Hl|]. by rewrite Hsz.
Defined.

(** [get], lines 274 to 284: a hit returns the stored value and makes the
    node of the key the fresh end, the other nodes keeping their order; the
    store, the index and the size are as before. *)
Theorem get_hit_refreshes (c : cache) (l : list loc) (h : gmap string loc)
    (d : gmap string item.t) (k : jskey) (x : loc) (it : item.t) :
  lru_list c l → lruHash c = Some h → data c = Some d →
  h !! prop k = Some x → x ∈ l → d !! prop k = Some it →
  ∃ c', get k c = (c', Return (item.value it))
        ∧ lru_list c' (filter (λ y, y ≠ x) l ++ [x])
        ∧ freshEnd c' = RObj x
        ∧ data c' = Some d ∧ lruHash c' = Some h ∧ size c' = size c.
Proof.
  intros Hl Hh Hd Hx Hin Hit. exists (_refresh x c).
  destruct (refresh_frame x c) as (Fsz & _ & Fd & Fh & _).
  split; [by eapply get_found|].
  split; [apply refresh_moves_to_fresh_end; auto|].
  split; [apply refresh_freshEnd|]. repeat split; congruence.
Qed.

Lemma get_hit_refreshes_witness :
  ∃ c', get (KString "a") full_two = (c', Return (VNum 1))
        ∧ lru_list c' [1; 0]%nat ∧ freshEnd c' = RObj 0%nat.
Proof.
  destruct (get_hit_refreshes full_two [0; 1]%nat
              {["a" := 0%nat; "b" := 1%nat]}
              {["a" := item.Item (VNum 1) VUndef VUndef;
                "b" := item.Item (VNum 2) VUndef VUndef]}
              (KString "a") 0%nat (item.Item (VNum 1) VUndef VUndef))
    as (c' & Hget & Hl & Hfe & _).
  - apply full_two_regular.
  - by vm_compute.
  - by vm_compute.
  - by vm_compute.
  - apply elem_of_cons. by left.
  - by vm_compute.
  - exists c'. split; [exact Hget|]. split; [exact Hl|exact Hfe].
Defined.

(** [get], lines 274 to 284, for a key that names no inherited member: in
    no state does [get] write to the size, the store, the index, the
    configuration or the timers; a miss writes nothing at all and returns
    undefined. *)
Theorem get_writes_list_only (c : cache) (k : jskey) :
  own_name k →
  let c' := fst (get k c) in
  size c' = size c ∧ data c' = data c ∧ lruHash c' = lruHash c
  ∧ config c' = config c ∧ timers c' = timers c
  ∧ nextTimer c' = nextTimer c
  ∧ (∀ h, lruHash c = Some h → h !! prop k = None →
          get k c = (c, Return VUndef)).
Proof.
  intros _ c'.
  assert (Hmiss : ∀ h, lruHash c = Some h → h !! prop k = None →
                       get k c = (c, Return VUndef)).
  { intros h Hh Hk. by apply (get_missing c h). }
  assert (Hc' : c' = c ∨ ∃ x, c' = _refresh x c).
  { unfold c', get, bind, gets, modify, ret, throw. simpl.
    destruct (lruHash c) as [h|]; [|by left].
    destruct (h !! prop k) as [x|]; [|by left].
    right. exists x. simpl. by repeat case_match. }
  destruct Hc' as [->|[x ->]]; [done|].
  destruct (refresh_frame x c) as (Fsz & Fcfg & Fd & Fh & Fts & Fnt & _).
  done.
Qed.

Lemma get_writes_list_only_witness :
  data (fst (get (KString "a") full_two)) = data full_two
  ∧ get (KString "z") full_two = (full_two, Return VUndef).
Proof.
  split.
  - destruct (get_writes_list_only full_two (KString "a"))
      as (_ & Hdata & _); [by vm_compute|exact Hdata].
  - destruct (get_writes_list_only full_two (KString "z"))
      as (_ & _ & _ & _ & _ & _ & Hmiss); [by vm_compute|].
    apply (Hmiss {["a" := 0%nat; "b" := 1%nat]}); by vm_compute.
Defined.

(** [removeAll], lines 333 to 338: from any state whatever it leaves an
    empty cache in which store, list and size agree, every [get] of a key
    that names no inherited member is a miss, and the configuration and the
    timers are as before. *)
Theorem removeAll_resets (c : cache) :
  let c' := fst (removeAll c) in
  snd (removeAll c) = Return VUndef
  ∧ consistent c' ∧ size c' = 0 ∧ data c' = Some ∅ ∧ lruHash c' = Some ∅
  ∧ config c' = config c ∧ timers c' = timers c
  ∧ (∀ k, own_name k → get k c' = (c', Return VUndef)).
Proof.
  simpl. split; [done|]. split.
  { exists ∅, []. split; [done|]. split; [|done].
    by apply lru_list_intro; [apply NoDup_nil| | |]. }
  repeat split.
Qed.

Lemma removeAll_resets_witness :
  get (KString "a") (fst (removeAll full_two))
  = (fst (removeAll full_two), Return VUndef).
Proof.
  destruct (removeAll_resets full_two)
    as (_ & _ & _ & _ & _ & _ & _ & Hget).
  apply Hget. by vm_compute.
Defined.

(** [put] lines 219 to 236: with undefined for a value and a key that has
    its node, [put] only refreshes the node: it returns undefined and the
    store, the index, the size and the timers are as before. *)
Theorem put_undefined_refreshes (c : cache) (h : gmap string loc)
    (k : jskey) (x : loc) (o : option jsval) :
  lruHash c = Some h → h !! prop k = Some x →
  isString k = true → ¬ bad_maxAge o →
  put k VUndef o c = (_refresh x c, Return VUndef)
  ∧ data (_refresh x c) = data c ∧ size (_refresh x c) = size c
  ∧ lruHash (_refresh x c) = lruHash c
  ∧ timers (_refresh x c) = timers c
  ∧ (∀ l, inv c l → inv (_refresh x c) (filter (λ y, y ≠ x) l ++ [x])).
Proof.
  intros Hh Hx Hstr Hage.
  destruct (refresh_frame x c) as (Fsz & _ & Fd & Fh & Fts & _).
  split; [|split; [done|split; [done|split; [done|split; [done|]]]]].
  - unfold put. unfold bind at 1.
    rewrite (lookupOrCreate_known k c h x Hh Hx), Hstr.
    change (negb true) with false. cbv beta iota. unfold bind at 1.
    destruct (truthy (optionsMaxAge o)) eqn:Ht.
    + destruct (_validateMaxAge (optionsMaxAge o)) eqn:Hva.
      * destruct Hage. by split.
      * reflexivity.
    + reflexivity.
  - intros l Hinv.
    assert (Hin : x ∈ l).
    { destruct Hinv as (_ & d & h' & _ & Hh' & Hi & _).
      assert (h' = h) as -> by congruence. by eapply indexed_key. }
    apply list_elem_of_split in Hin as (l1 & l2 & ->).
    destruct Hinv as [Hl Hrest].
    rewrite filter_ne_split by apply Hl. rewrite <- app_assoc.
    by apply inv_refresh.
Qed.

Lemma put_undefined_refreshes_witness :
  put (KString "a") VUndef None full_two
  = (_refresh 0%nat full_two, Return VUndef)
  ∧ inv (_refresh 0%nat full_two) [1; 0]%nat.
Proof.
  destruct (put_undefined_refreshes full_two {["a" := 0%nat; "b" := 1%nat]}
              (KString "a") 0%nat None)
    as (Hput & _ & _ & _ & _ & Hinv).
  - by vm_compute.
  - by vm_compute.
  - reflexivity.
  - by intros [? _].
  - split; [exact Hput|]. apply (Hinv [0; 1]%nat), full_two_regular.
Defined.

Lemma clearTimer_timers id c i :
  timers (clearTimer id c) !! i
  = if decide (id = VNum i) then None else timers c !! i.
Proof.
  destruct (decide (id = VNum i)) as [->|Hne].
  - apply lookup_delete_eq.
  - destruct id; simpl; try done. apply lookup_delete_ne. congruence.
Qed.

(** The callback of the flush interval, lines 95 to 103: it cancels the
    timer of every entry of the store, leaves every other timer of the host
    pending (the interval itself among them), and empties the store, the
    index and the list. *)
Theorem flush_cancels_entry_timers (c : cache) (d : gmap string item.t) :
  data c = Some d →
  data (flush c) = Some ∅ ∧ lruHash (flush c) = Some ∅
  ∧ freshEnd (flush c) = RNull ∧ staleEnd (flush c) = RNull
  ∧ (∀ key it i, d !! key = Some it → item.timeoutId it = VNum i →
                 timers (flush c) !! i = None)
  ∧ (∀ i, (∀ key it, d !! key = Some it → item.timeoutId it ≠ VNum i) →
          timers (flush c) !! i = timers c !! i).
Proof.
  intros Hd. unfold flush. rewrite Hd. cbn [data lruHash freshEnd staleEnd
    timers set_staleEnd set_freshEnd set_lruHash set_data].
  do 4 (split; [done|]).
  apply (map_fold_weak_ind
    (λ r (m : gmap string item.t),
       (∀ key it i, m !! key = Some it → item.timeoutId it = VNum i →
                    timers r !! i = None)
       ∧ (∀ i, (∀ key it, m !! key = Some it → item.timeoutId it ≠ VNum i) →
               timers r !! i = timers c !! i))).
  - split; [intros key it i Hk; by rewrite lookup_empty in Hk|done].
  - intros key it m r Hfresh [IH1 IH2]. split.
    + intros key' it' i Hk Hi. rewrite clearTimer_timers.
      destruct (decide (item.timeoutId it = VNum i)); [done|].
      apply lookup_insert_Some in Hk as [[<- <-]|[Hne Hk]]; [done|].
      by eapply IH1.
    + intros i Hno. rewrite clearTimer_timers.
      rewrite decide_False by (eapply Hno; apply lookup_insert_eq).
      apply IH2. intros key' it' Hk. apply (Hno key').
      rewrite lookup_insert_ne; [done|]. intros <-. congruence.
Qed.

Lemma flush_cancels_entry_timers_witness :
  let c := run [Put (KString "a") (VNum 1) (Some (VNum 50))] flush_1000 in
  timers c !! 2 = Some (Timer 50 None (ARemove (KString "a")))
  ∧ timers (flush c) !! 2 = None
  ∧ timers (flush c) !! 1 = timers c !! 1.
Proof.
  intros c.
  destruct (flush_cancels_entry_timers c
              {["a" := item.Item (VNum 1) (VNum 0) (VNum 2)]})
    as (_ & _ & _ & _ & Hcancel & Hkeep).
  - by vm_compute.
  - split; [by vm_compute|]. split.
    + apply (Hcancel "a" (item.Item (VNum 1) (VNum 0) (VNum 2))); by vm_compute.
    + apply Hkeep. intros key it [_ <-]%lookup_singleton_Some.
      discriminate.
Defined.

Lemma validate_accepted v : _validate v = false ↔ accepted v.
Proof.
  unfold _validate, accepted. destruct v as [| |b|z|s|ob]; simpl.
  - split; [by left|done].
  - split; [by left|done].
  - destruct b; simpl; split; try done; [|by left].
    intros [?|(z & ? & _)]; done.
  - destruct (Z.eqb_spec z 0) as [->|Hz]; simpl.
    + split; [by left|done].
    + split.
      * intros Hlt%Z.ltb_ge. right. exists z. split; [done|lia].
      * intros [?|(z' & [= <-] & Hpos)]; [done|]. apply Z.ltb_ge. lia.
  - destruct (String.eqb s ""); simpl; split; try done; [by left|].
    intros [?|(z & ? & _)]; done.
  - split; [done|]. intros [?|(z & ? & _)]; done.
Qed.

(** The constructor, lines 73 to 104, with [_validateCapacity],
    [_validateMaxAge] and [_validateCacheFlushInterval]: it throws exactly
    when one of the three options is truthy and is not a number above 0.
    Otherwise the instance is empty; a capacity that is missing or falsy, 0
    included, becomes [Number.MAX_VALUE]; and the only timer is the flush
    interval, when one is configured. *)
Theorem constructor_outcome (cacheId : string)
    (options : gmap string jsval) :
  (options_accepted options →
   ∃ c0 cfg,
     AdvancedCache cacheId options = Return c0
     ∧ size c0 = 0 ∧ data c0 = Some ∅ ∧ lruHash c0 = Some ∅
     ∧ freshEnd c0 = RNull ∧ staleEnd c0 = RNull
     ∧ config c0 = Some cfg
     ∧ getprop cfg "capacity"
       = (if truthy (getprop options "capacity")
          then getprop options "capacity" else VNum MAX_VALUE)
     ∧ timers c0
       = (if truthy (getprop options "cacheFlushInterval")
          then {[1 := Timer (to_delay (getprop options "cacheFlushInterval"))
                        (Some (to_delay (getprop options "cacheFlushInterval")))
                        AFlush]}
          else ∅))
  ∧ (¬ options_accepted options →
     AdvancedCache cacheId options = Throw ErrValidation).
Proof.
  assert (Hget : ∀ name, name ≠ "id" →
            getprop (<["id" := VStr cacheId]> options) name
            = getprop options name).
  { intros name Hne. unfold getprop. by rewrite lookup_insert_ne. }
  assert (Hgetc : ∀ name m, name ≠ "capacity" →
            getprop (<["capacity" := VNum MAX_VALUE]> m) name
            = getprop m name).
  { intros name m Hne. unfold getprop. by rewrite lookup_insert_ne. }
  unfold AdvancedCache, _validateCapacity, _validateCacheFlushInterval,
    _validateMaxAge, options_accepted.
  fold (getprop (<["id" := VStr cacheId]> options) "capacity").
  fold (getprop (<["id" := VStr cacheId]> options) "cacheFlushInterval").
  rewrite !Hget by done.
  rewrite <- !validate_accepted.
  destruct (_validate (getprop options "capacity")) eqn:Hc;
    [split; [by intros (? & _)|done]|].
  destruct (_validate (getprop options "maxAge")) eqn:Hm;
    [split; [by intros (_ & ? & _)|done]|].
  destruct (_validate (getprop options "cacheFlushInterval")) eqn:Hf;
    [split; [by intros (_ & _ & ?)|done]|].
  simpl. split; [intros _|by intros []].
  destruct (truthy (getprop options "capacity")) eqn:Htc;
    rewrite ?Hgetc, ?Hget by done;
    destruct (truthy (getprop options "cacheFlushInterval")) eqn:Htf; simpl;
    eexists _, _; (split; [reflexivity|]); repeat (split; [done|]).
  all: split; [|done].
  all: unfold getprop; rewrite ?lookup_insert_ne by done;
    rewrite ?lookup_insert_eq; done.
Qed.

Lemma constructor_outcome_witness :
  (∃ c0 cfg, AdvancedCache "c" {["capacity" := VNum 0]} = Return c0
             ∧ config c0 = Some cfg
             ∧ getprop cfg "capacity" = VNum MAX_VALUE)
  ∧ AdvancedCache "c" {["maxAge" := VStr "soon"]} = Throw ErrValidation.
Proof.
  split.
  - destruct (constructor_outcome "c" {["capacity" := VNum 0]})
      as [Hok _].
    destruct Hok as (c0 & cfg & Hnew & _ & _ & _ & _ & _ & Hcfg & Hcap & _).
    + repeat split; by left.
    + exists c0, cfg. split; [exact Hnew|]. split; [exact Hcfg|exact Hcap].
  - apply (constructor_outcome "c" {["maxAge" := VStr "soon"]}).
    intros (_ & [Hm|(z & Hm & _)] & _); by vm_compute in Hm.
Defined.

(** ** The expiry timer of [put] *)

#[local] Instance same_service_refl : Reflexive same_service.
Proof. by intros c. Qed.
#[local] Instance same_service_trans : Transitive same_service.
Proof.
  intros c1 c2 c3 (? & ? & ?) (? & ? & ?). unfold same_service.
  repeat split; congruence.
Qed.

Lemma remove_unlink_service x c : same_service c (remove_unlink x c).
Proof.
  unfold remove_unlink, same_service.
  destruct c as [sz cfg d' lh fe se hp ts nt t]. simpl.
  destruct (decide (RObj x = fe)); simpl;
    destruct (decide (RObj x = se)); simpl; done.
Qed.

Lemma remove_service k : preserves same_service (remove k).
Proof.
  intros c. destruct (lruHash c) as [h|] eqn:Hh.
  2:{ unfold remove, bind, gets. rewrite Hh. reflexivity. }
  destruct (h !! prop k) as [x|] eqn:Hx.
  2:{ rewrite (remove_missing c h k) by done. reflexivity. }
  destruct (data c) as [d|] eqn:Hd.
  - rewrite (remove_found c h d k x) by done.
    cbn [fst]. destruct (remove_unlink_service x c) as (? & ? & ?).
    repeat split; done.
  - unfold remove, bind, gets, modify. rewrite Hh, Hx.
    cbn [fst snd data set_lruHash].
    rewrite (proj1 (proj2 (proj2 (remove_unlink_frame x c)))), Hd.
    cbn [fst throw]. destruct (remove_unlink_service x c) as (? & ? & ?).
    repeat split; done.
Qed.

Lemma put_evict_service cfg : preserves same_service (put_evict cfg).
Proof.
  unfold put_evict.
  repeat first [ apply remove_service | preserves_step ].
Qed.

(** What [remove] does to the entry store: nothing, or the entry of the key
    goes. *)
Lemma remove_data k c d :
  data c = Some d →
  data (fst (remove k c)) = Some d
  ∨ data (fst (remove k c)) = Some (delete (prop k) d).
Proof.
  intros Hd. destruct (lruHash c) as [h|] eqn:Hh.
  2:{ left. unfold remove, bind, gets. by rewrite Hh. }
  destruct (h !! prop k) as [x|] eqn:Hx.
  - right. by rewrite (remove_found c h d k x).
  - left. by rewrite (remove_missing c h k).
Qed.

Lemma put_evict_data cfg c d :
  data c = Some d →
  ∃ d', data (fst (put_evict cfg c)) = Some d'
        ∧ ∀ key, d' !! key = None ∨ d' !! key = d !! key.
Proof.
  intros Hd. unfold put_evict, bind, gets.
  destruct (exceeds (size c) (getprop cfg "capacity")).
  2:{ exists d. split; [done|]. by right. }
  destruct (staleEnd c) as [| |y]; try (exists d; split; [done|]; by right).
  destruct (remove_data (field_key y c) c d Hd) as [Hr|Hr];
    rewrite Hr; eexists; (split; [reflexivity|]); intros key; [by right|].
  destruct (decide (prop (field_key y c) = key)) as [<-|Hne].
  - left. apply lookup_delete_eq.
  - right. by apply lookup_delete_ne.
Qed.

Lemma put_stored_service k v x d c : same_service c (put_stored k v x d c).
Proof.
  destruct (refresh_frame x c) as (_ & _ & _ & _ & Fts & Fnt & Fnow).
  unfold put_stored, same_service.
  destruct (decide (is_Some (d !! prop k))); simpl; done.
Qed.

Lemma lookupOrCreate_found c h k :
  lruHash c = Some h →
  ∃ c1 x, lookupOrCreate k c = (c1, Return x)
          ∧ data c1 = data c ∧ config c1 = config c ∧ same_service c c1.
Proof.
  intros Hh. unfold lookupOrCreate. rewrite Hh.
  destruct (h !! prop k) as [x|]; eexists _, _; (split; [reflexivity|]);
    done.
Qed.

(** The arming of the expiry on an item that has no timer yet. *)
Lemma put_arm_service c d k o cfg it :
  data c = Some d → d !! prop k = Some it →
  truthy (item.timeoutId it) = false →
  ∃ c' d',
    put_arm k o cfg c = (c', Return tt) ∧ now c' = now c
    ∧ data c' = Some d'
    ∧ if truthy (maxAgeInForce o cfg) then
        timers c'
        = <[nextTimer c := Timer (now c + to_delay (maxAgeInForce o cfg))
                             None (ARemove k)]> (timers c)
        ∧ nextTimer c' = nextTimer c + 1
        ∧ d' !! prop k
          = Some (item.Item (item.value it) (VNum (now c))
                    (VNum (nextTimer c)))
      else timers c' = timers c ∧ nextTimer c' = nextTimer c ∧ d' = d.
Proof.
  intros Hd Hit Hold. unfold put_arm, maxAgeInForce.
  destruct (truthy (optionsMaxAge o)) eqn:Ho;
    [rewrite orb_true_r|rewrite orb_false_r].
  2: destruct (truthy (getprop cfg "maxAge")) eqn:Hc.
  3:{ exists c, d. done. }
  all: rewrite ?Ho, ?Hc.
  all: destruct c as [sz cfg' d0 lh fe se hp ts nt t]; simpl in Hd; subst d0.
  all: unfold bind, gets, updateItem, itemTimeoutId, setTimeout, modify, ret.
  all: simpl; rewrite lookup_alter_eq, Hit; simpl; rewrite Hold; simpl.
  all: eexists _, _; (split; [reflexivity|]); split; [done|].
  all: split; [reflexivity|]; split; [done|]; split; [done|].
  all: by rewrite !lookup_alter_eq, Hit.
Qed.

Lemma fst_bind_ret {A} (m : M A) (v : jsval) c :
  fst ((m ;; ret v) c) = fst (m c).
Proof. unfold bind. by destruct (m c) as [c' [a|e]]. Qed.

(** The state that a [put] with a string key, a value and a valid max age
    leaves, as far as the timers and the entry of the key go. *)
Lemma put_clean_effect c h d cfg k v o :
  lruHash c = Some h → data c = Some d → config c = Some cfg →
  clean (Put k v o) →
  let c' := fst (put k v o c) in
  let age := maxAgeInForce o cfg in
  now c' = now c
  ∧ ∃ d', data c' = Some d'
    ∧ if truthy age then
        timers c'
        = <[nextTimer c := Timer (now c + to_delay age) None (ARemove k)]>
            (timers c)
        ∧ nextTimer c' = nextTimer c + 1
        ∧ (∀ it, d' !! prop k = Some it →
                 it = item.Item v (VNum (now c)) (VNum (nextTimer c)))
      else
        timers c' = timers c ∧ nextTimer c' = nextTimer c
        ∧ (∀ it, d' !! prop k = Some it → it = item.Item v VUndef VUndef).
Proof.
  intros Hh Hd Hcfg (Hstr & Hv & Hage). intros c' age.
  destruct (lookupOrCreate_found c h k Hh)
    as (c1 & x & Hlook & Hd1 & Hcfg1 & St1 & Sn1 & Sw1).
  rewrite Hd in Hd1. rewrite Hcfg in Hcfg1.
  pose proof (put_clean_eq c c1 x d cfg k v o Hstr Hv Hage Hlook Hd1 Hcfg1)
    as Hput.
  destruct (put_stored_service k v x d c1) as (St2 & Sn2 & Sw2).
  destruct (put_stored_frame k v x d c1)
    as (_ & _ & _ & _ & _ & _ & Hds & _).
  destruct (put_arm_service (put_stored k v x d c1) _ k o cfg
              (item.Item v VUndef VUndef) Hds)
    as (ca & da & Harm & Swa & Hda & Harmed);
    [apply lookup_insert_eq|done|].
  assert (Hc' : c' = fst (put_evict cfg ca)).
  { unfold c'. rewrite Hput, (bind_return _ _ _ _ _ Harm).
    apply fst_bind_ret. }
  destruct (put_evict_service cfg ca) as (St3 & Sn3 & Sw3).
  destruct (put_evict_data cfg ca da Hda) as (d' & Hd' & Hkeep).
  rewrite <- Hc' in St3, Sn3, Sw3, Hd'.
  split; [congruence|].
  fold age in Harmed. destruct (truthy age).
  - destruct Harmed as (Hts & Hnt & Hit).
    exists d'. split; [done|]. split; [|split].
    + rewrite St3, Hts. congruence.
    + rewrite Sn3, Hnt. congruence.
    + intros it Hk. destruct (Hkeep (prop k)) as [Hn|He]; [congruence|].
      rewrite He, Hit, Sw2, Sn2, Sw1, Sn1 in Hk. by injection Hk as <-.
  - destruct Harmed as (Hts & Hnt & ->).
    exists d'. split; [done|]. split; [congruence|]. split; [congruence|].
    intros it Hk. destruct (Hkeep (prop k)) as [Hn|He]; [congruence|].
    rewrite He, lookup_insert_eq in Hk. congruence.
Qed.

(** [put], lines 244 to 252 (with the eviction of lines 254 to 256 after
    them): a [put] with a string key, a value and a valid max age touches
    the timers in one way only.  When a max age is in force, that of the
    call or else that of the configuration, it arms one new timer, under
    the next handle of the host, due that long after the current time, to
    remove the key; the entry, as long as the eviction leaves it in the
    store, records the time of the call and that handle.  When no max age
    is in force the timers are as before and the entry has neither a
    timestamp nor a handle.  No timer that was pending is cancelled or
    changed, unless it sits under the handle that the host gives out
    next. *)
Theorem put_arms_expiry c h d cfg k v o :
  lruHash c = Some h → data c = Some d → config c = Some cfg →
  clean (Put k v o) →
  let c' := fst (put k v o c) in
  let age := maxAgeInForce o cfg in
  now c' = now c
  ∧ (∀ i, i ≠ nextTimer c → timers c' !! i = timers c !! i)
  ∧ ∃ d', data c' = Some d'
    ∧ if truthy age then
        timers c'
        = <[nextTimer c := Timer (now c + to_delay age) None (ARemove k)]>
            (timers c)
        ∧ nextTimer c' = nextTimer c + 1
        ∧ (∀ it, d' !! prop k = Some it →
                 it = item.Item v (VNum (now c)) (VNum (nextTimer c)))
      else
        timers c' = timers c ∧ nextTimer c' = nextTimer c
        ∧ (∀ it, d' !! prop k = Some it → it = item.Item v VUndef VUndef).
Proof.
  intros Hh Hd Hcfg Hclean c' age.
  destruct (put_clean_effect c h d cfg k v o Hh Hd Hcfg Hclean)
    as (Hnow & d' & Hd' & Heff).
  fold c' in Hnow, Hd', Heff. fold age in Heff.
  split; [done|]. split; [|by exists d'].
  intros i Hi. destruct (truthy age).
  - destruct Heff as (-> & _). by rewrite lookup_insert_ne.
  - by destruct Heff as (-> & _).
Qed.

Lemma put_arms_expiry_witness :
  let c := run [Put (KString "x") (VNum 1) None; Sleep 50] max_age_100 in
  let c' := fst (put (KString "x") (VNum 2) None c) in
  timers c' !! 2 = Some (Timer 150 None (ARemove (KString "x")))
  ∧ timers c' !! 1 = timers c !! 1.
Proof.
  intros c c'.
  pose (cfg := <["capacity" := VNum MAX_VALUE]>
                 (<["id" := VStr "c"]> {["maxAge" := VNum 100]})
               : gmap string jsval).
  assert (Hage : truthy (maxAgeInForce None cfg) = true) by reflexivity.
  destruct (put_arms_expiry c {["x" := 0%nat]}
              {["x" := item.Item (VNum 1) (VNum 0) (VNum 1)]}
              cfg (KString "x") (VNum 2) None)
    as (_ & Hkeep & d' & _ & Harmed).
  - by vm_compute.
  - by vm_compute.
  - by vm_compute.
  - apply clean_put_value.
  - cbv zeta in Harmed. rewrite Hage in Harmed.
    destruct Harmed as (Hts & _ & _). split.
    + fold c' in Hts. rewrite Hts.
      change (nextTimer c) with 2. apply lookup_insert_eq.
    + apply Hkeep. by vm_compute.
Defined.

(** ** The expiry of an entry *)

Lemma fire_due c id tm k :
  timers c !! id = Some tm → due tm ≤ now c →
  act tm = ARemove k → period tm = None →
  fire id c = remove k (set_timers (delete id) c).
Proof.
  intros Htm Hdue Hact Hper. unfold fire.
  unfold bind at 1, gets at 1. unfold bind at 1, gets at 1.
  rewrite Htm, decide_True by done. rewrite Hper, Hact. reflexivity.
Qed.

Lemma fire_not_due c id tm :
  timers c !! id = Some tm → now c < due tm → fire id c = (c, Return VUndef).
Proof.
  intros Htm Hdue. unfold fire.
  unfold bind at 1, gets at 1. unfold bind at 1, gets at 1.
  rewrite Htm, decide_False by lia. reflexivity.
Qed.

Lemma regular_spend_timer c l id :
  regular c l → regular (set_timers (delete id) c) l.
Proof.
  intros (Hinv & Hb & Hex). split; [|split].
  - destruct Hinv as (Hl & d & h & ?). split; [by eapply lru_list_ext|].
    by exists d, h.
  - done.
  - unfold expiry_only. cbn [timers set_timers].
    apply expiry_only_delete, Hex.
Qed.

Lemma fst_bind_pure {A B} (m : M A) (f : A → B) c :
  fst ((r <- m ;; ret (f r)) c) = fst (m c).
Proof. unfold bind. by destruct (m c) as [c' [a|e]]. Qed.

(** [put] (lines 219 to 259), the callback of its timer (line 249) and
    [get] (lines 274 to 284), one after the other on an instance in a
    regular state: a key that names no inherited member is put with a max
    age in force, one that the host takes as it is, some time passes and
    the host runs the timer that the put armed.  When that time is at least
    the max age the callback removes the entry and [get] returns undefined;
    when it is less the callback has not run and [get] returns the value.
    The state is regular either way. *)
Theorem entry_expires c l cfg k v o dt :
  regular c l → config c = Some cfg → clean (Put k v o) → own_name k →
  truthy (maxAgeInForce o cfg) = true →
  to_delay (maxAgeInForce o cfg) ≤ MAX_DELAY → 0 ≤ dt →
  let c1 := run [Put k v o; Sleep dt; Fire (nextTimer c)] c in
  (∃ l1, regular c1 l1)
  ∧ ∃ c2, get k c1
          = (c2, Return (if decide (to_delay (maxAgeInForce o cfg) ≤ dt)
                         then VUndef else v)).
Proof.
  intros Hreg Hcfg Hclean _ Hage _ Hdt c1.
  pose proof Hreg as (Hinv & (cfg0 & cap & Hcfg0 & Hcap & Hcap1 & Hsz) & Hex).
  assert (cfg0 = cfg) as -> by congruence.
  pose proof Hinv as (_ & d & h & Hd & Hh & _).
  pose proof Hclean as (Hstr & Hv & Hbad).
  destruct (put_spec c l k v o d cfg cap)
    as (c' & l' & d' & x & Hput & Hinv' & Hex' & Hcfg' & Hsz' & Hd' & Hval & _);
    try done.
  assert (Hreg' : regular c' l').
  { split; [done|]. split; [|done]. by exists cfg, cap. }
  destruct (put_clean_effect c h d cfg k v o Hh Hd Hcfg Hclean)
    as (Hnow & d'' & _ & Heff).
  cbv zeta in Hnow, Heff. rewrite Hput in Hnow, Heff.
  cbn [fst] in Hnow, Heff. rewrite Hage in Heff.
  destruct Heff as (Hts & _ & _).
  set (c2 := set_now (now c' + Z.max dt 0) c').
  assert (Hc1 : c1 = fst (fire (nextTimer c) c2)).
  { unfold c1.
    change (run _ c)
      with (fst (exec (Fire (nextTimer c))
                   (fst (exec (Sleep dt) (fst (exec (Put k v o) c)))))).
    unfold exec. rewrite !fst_bind_pure, Hput. reflexivity. }
  destruct (sleep_spec c' l' dt Hreg') as (c2' & Hsl & Hreg2).
  change (sleep dt c') with (c2, Return VUndef) in Hsl. injection Hsl as <-.
  assert (Hd2 : data c2 = Some d') by exact Hd'.
  assert (Htm : timers c2 !! nextTimer c
                = Some (Timer (now c + to_delay (maxAgeInForce o cfg)) None
                          (ARemove k))).
  { change (timers c2) with (timers c'). rewrite Hts.
    apply lookup_insert_eq. }
  assert (Hnow2 : now c2 = now c + dt).
  { change (now c2) with (now c' + Z.max dt 0). rewrite Hnow. lia. }
  rewrite Hc1.
  destruct (decide (to_delay (maxAgeInForce o cfg) ≤ dt)) as [Hdue|Hdue].
  - rewrite (fire_due c2 _ _ k Htm) by (done || (cbn [due]; lia)).
    pose proof (regular_spend_timer c2 l' (nextTimer c) Hreg2) as Hreg3.
    destruct (remove_spec _ l' k d' Hreg3 Hd2)
      as (c4 & l4 & Hrm & Hreg4 & Hd4).
    rewrite Hrm. cbn [fst]. split; [eauto|].
    destruct (get_spec c4 l4 k _ Hreg4 Hd4) as (c5 & _ & Hget & _).
    rewrite lookup_delete_eq in Hget. eauto.
  - rewrite (fire_not_due c2 _ _ Htm) by (cbn [due]; lia).
    cbn [fst]. split; [eauto|].
    destruct (get_spec c2 l' k d' Hreg2 Hd2) as (c5 & _ & Hget & _).
    rewrite Hval in Hget. eauto.
Qed.

Lemma entry_expires_witness :
  ∃ c2, get (KString "x")
          (run [Put (KString "x") (VNum 1) None; Sleep 100; Fire 1]
               max_age_100)
        = (c2, Return VUndef).
Proof.
  pose (cfg := <["capacity" := VNum MAX_VALUE]>
                 (<["id" := VStr "c"]> {["maxAge" := VNum 100]})
               : gmap string jsval).
  destruct (entry_expires max_age_100 [] cfg (KString "x") (VNum 1) None 100)
    as (_ & c2 & Hget).
  - apply (constructor_regular "c" {["maxAge" := VNum 100]});
      by vm_compute.
  - by vm_compute.
  - apply clean_put_value.
  - by vm_compute.
  - reflexivity.
  - by vm_compute.
  - lia.
  - exists c2. exact Hget.
Defined.

(** ** The factory and its registry *)

Lemma constructor_config_id s o c :
  AdvancedCache s o = Return c →
  ∃ cfg, config c = Some cfg ∧ cfg !! "id" = Some (VStr s).
Proof.
  unfold AdvancedCache. destruct (_ || _); [done|].
  destruct (truthy (getprop (<["id" := VStr s]> o) "capacity"));
    destruct (truthy (getprop _ "cacheFlushInterval")); simpl;
    intros [= <-]; eexists; (split; [reflexivity|]);
    rewrite ?lookup_insert_ne by done; apply lookup_insert_eq.
Qed.

Lemma constructor_returns_iff s o :
  (∃ c, AdvancedCache s o = Return c) ↔ options_accepted o.
Proof.
  assert (Hget : ∀ name, name ≠ "id" →
            getprop (<["id" := VStr s]> o) name = getprop o name).
  { intros name Hne. unfold getprop. by rewrite lookup_insert_ne. }
  unfold AdvancedCache, _validateCapacity, _validateCacheFlushInterval,
    _validateMaxAge, options_accepted.
  fold (getprop (<["id" := VStr s]> o) "capacity").
  fold (getprop (<["id" := VStr s]> o) "cacheFlushInterval").
  rewrite !Hget by done. rewrite <- !validate_accepted.
  destruct (_validate (getprop o "capacity"));
    [split; [by intros [? ?]|by intros (? & _)]|].
  destruct (_validate (getprop o "maxAge"));
    [split; [by intros [? ?]|by intros (_ & ? & _)]|].
  destruct (_validate (getprop o "cacheFlushInterval"));
    [split; [by intros [? ?]|by intros (_ & _ & ?)]|].
  split; [done|intros _]. simpl.
  destruct (truthy (getprop _ "cacheFlushInterval")); simpl; eauto.
Qed.

Lemma constructor_throws_validation s o e :
  AdvancedCache s o = Throw e → e = ErrValidation.
Proof.
  unfold AdvancedCache. destruct (_ || _); [by intros [= <-]|].
  destruct (truthy (getprop _ "cacheFlushInterval")); simpl; done.
Qed.

Lemma destroy_live c cfg :
  config c = Some cfg →
  ∃ c', destroy c = (c', Return VUndef) ∧ config c' = None.
Proof.
  intros H. unfold destroy. unfold bind at 1, gets at 1. rewrite H.
  eexists. split; reflexivity.
Qed.

Lemma destroy_dead c : config c = None → destroy c = (c, Throw TypeError).
Proof.
  intros H. unfold destroy. unfold bind at 1, gets at 1. by rewrite H.
Qed.

Lemma call_on_eq w r f cacheId c :
  instances w !! r = Some (cacheId, c) →
  call_on r f w
  = Some (Factory
            (match f, snd (exec f c) with
             | Destroy, Return _ => delete cacheId
             | _, _ => id
             end (caches w))
            (<[r := (cacheId, fst (exec f c))]> (instances w)),
          snd (exec f c)).
Proof. intros Hr. unfold call_on. rewrite Hr. by destruct f. Qed.

(** A call that leaves [config] as it is leaves the registry in order. *)
Lemma registry_ok_update w r cacheId c c' :
  registry_ok w → instances w !! r = Some (cacheId, c) →
  config c' = config c →
  registry_ok (Factory (caches w) (<[r := (cacheId, c')]> (instances w))).
Proof.
  intros [Hid Hreg] Hr Hcfg. split; cbn [caches instances].
  - intros r1 id1 c1 cfg1. destruct (decide (r = r1)) as [<-|Hne].
    + rewrite lookup_insert_eq. intros [= <- <-]. rewrite Hcfg.
      by apply (Hid r cacheId c).
    + rewrite lookup_insert_ne by done. apply Hid.
  - intros id1 r1. rewrite Hreg. destruct (decide (r = r1)) as [<-|Hne].
    + rewrite lookup_insert_eq, Hr. split.
      * intros (c1 & [= <- <-] & Hlive). exists c'. by rewrite Hcfg.
      * intros (c1 & [= <- <-] & Hlive). exists c. by rewrite <- Hcfg.
    + by rewrite lookup_insert_ne.
Qed.

(** A [destroy] that returns takes the instance, and nothing else, out of
    the registry. *)
Lemma registry_ok_destroy w r cacheId c c' cfg :
  registry_ok w → instances w !! r = Some (cacheId, c) →
  config c = Some cfg → config c' = None →
  registry_ok (Factory (delete cacheId (caches w))
                       (<[r := (cacheId, c')]> (instances w))).
Proof.
  intros [Hid Hreg] Hr Hcfg Hcfg'.
  assert (Hmine : caches w !! cacheId = Some r).
  { apply Hreg. exists c. by rewrite Hcfg. }
  split; cbn [caches instances].
  - intros r1 id1 c1 cfg1. destruct (decide (r = r1)) as [<-|Hne].
    + rewrite lookup_insert_eq. intros [= <- <-]. by rewrite Hcfg'.
    + rewrite lookup_insert_ne by done. apply Hid.
  - intros id1 r1. destruct (decide (cacheId = id1)) as [<-|Hid1].
    + rewrite lookup_delete_eq. split; [done|].
      intros (c1 & Hr1 & Hlive). destruct (decide (r = r1)) as [<-|Hne].
      * rewrite lookup_insert_eq in Hr1. injection Hr1 as <-.
        rewrite Hcfg' in Hlive. by destruct Hlive.
      * rewrite lookup_insert_ne in Hr1 by done.
        assert (caches w !! cacheId = Some r1) by (apply Hreg; eauto).
        congruence.
    + rewrite lookup_delete_ne by done. rewrite Hreg.
      destruct (decide (r = r1)) as [<-|Hne].
      * rewrite lookup_insert_eq, Hr. split; intros (c1 & [=] & _); done.
      * by rewrite lookup_insert_ne.
Qed.

Lemma exec_destroy_live c cfg :
  config c = Some cfg →
  ∃ c', exec Destroy c = (c', Return (Val VUndef)) ∧ config c' = None.
Proof.
  intros H. destruct (destroy_live c cfg H) as (c' & Hd & Hc').
  exists c'. split; [|done]. simpl. by rewrite (bind_return _ _ _ _ _ Hd).
Qed.

Lemma exec_destroy_dead c :
  config c = None → exec Destroy c = (c, Throw TypeError).
Proof. intros H. simpl. unfold bind. by rewrite (destroy_dead c H). Qed.

Lemma new_factory_ok : registry_ok new_factory.
Proof.
  split; cbn [caches instances new_factory].
  - intros r id c cfg. by rewrite lookup_empty.
  - intros id r. rewrite lookup_empty. split; [done|].
    intros (c & Hc & _). by rewrite lookup_empty in Hc.
Qed.

Lemma call_on_ok w r f w' res :
  registry_ok w → call_on r f w = Some (w', res) → registry_ok w'.
Proof.
  intros Hok. destruct (instances w !! r) as [[cacheId c]|] eqn:Hr.
  2:{ unfold call_on. by rewrite Hr. }
  rewrite (call_on_eq w r f cacheId c Hr).
  assert (f = Destroy ∨ f ≠ Destroy) as [-> | Hf]
    by (destruct f; (by left) || (by right)).
  - destruct (config c) as [cfg|] eqn:Hcfg.
    + destruct (exec_destroy_live c cfg Hcfg) as (c' & Hex & Hc').
      rewrite Hex. cbn [fst snd]. intros [= <- <-].
      by eapply registry_ok_destroy.
    + rewrite (exec_destroy_dead c Hcfg). cbn [fst snd]. intros [= <- <-].
      by eapply registry_ok_update.
  - pose proof (exec_config f Hf c) as Hsame. unfold same_config in Hsame.
    destruct f; try (by destruct Hf); intros [= <- <-];
      by eapply registry_ok_update.
Qed.

Lemma advancedCacheFactory_ok cacheId options w :
  registry_ok w → registry_ok (fst (advancedCacheFactory cacheId options w)).
Proof.
  intros Hok. unfold advancedCacheFactory.
  destruct (decide (prop cacheId ∈ dom (caches w) ∪ Object_prototype))
    as [|Hfree]; [done|].
  apply not_elem_of_union in Hfree as [Hfree _].
  destruct (negb (isString cacheId)); [done|].
  destruct (AdvancedCache (prop cacheId) options) as [c|e] eqn:Hnew; [|done].
  destruct (constructor_config_id _ _ _ Hnew) as (cfg & Hcfg & Hid0).
  destruct Hok as [Hid Hreg]. cbn [fst].
  set (r := fresh (dom (instances w))).
  assert (Hr : instances w !! r = None).
  { apply not_elem_of_dom. apply is_fresh. }
  apply not_elem_of_dom in Hfree.
  split; cbn [caches instances].
  - intros r1 id1 c1 cfg1. destruct (decide (r = r1)) as [<-|Hne].
    + rewrite lookup_insert_eq. intros [= <- <-]. congruence.
    + rewrite lookup_insert_ne by done. apply Hid.
  - intros id1 r1. destruct (decide (prop cacheId = id1)) as [<-|Hid1].
    + rewrite lookup_insert_eq. split.
      * intros [= <-]. exists c. rewrite lookup_insert_eq, Hcfg. eauto.
      * intros (c1 & Hr1 & Hlive). destruct (decide (r = r1)) as [<-|Hne];
          [done|].
        rewrite lookup_insert_ne in Hr1 by done.
        assert (caches w !! prop cacheId = Some r1) by (apply Hreg; eauto).
        congruence.
    + rewrite lookup_insert_ne by done. rewrite Hreg.
      destruct (decide (r = r1)) as [<-|Hne].
      * rewrite lookup_insert_eq, Hr. split.
        -- by intros (c1 & [=] & _).
        -- intros (c1 & [= ? ?] & _). done.
      * by rewrite lookup_insert_ne.
Qed.

Lemma factory_exec_ok a w : registry_ok w → registry_ok (factory_exec a w).
Proof.
  intros Hok. destruct a as [cacheId options|r f]; simpl.
  - by apply advancedCacheFactory_ok.
  - destruct (call_on r f w) as [[w' res]|] eqn:Hcall; [|done].
    by eapply call_on_ok.
Qed.

Lemma factory_run_ok l w : registry_ok w → registry_ok (factory_run l w).
Proof.
  revert w. induction l as [|a l IH]; intros w Hok; simpl; [done|].
  by apply IH, factory_exec_ok.
Qed.

Lemma two_caches_ok : registry_ok two_caches.
Proof. apply factory_run_ok, new_factory_ok. Qed.

(** [advancedCacheFactory] (lines 380 to 389), [destroy] (line 357) and
    every method and timer callback of the instances: whatever a program
    does with a factory, in any order and whether the calls return or
    throw, [caches] holds exactly the instances that have not been
    destroyed, each under the id of its [config], so that no two live
    instances share an id. *)
Theorem registry_tracks_live_instances (l : list factory_call) :
  let w := factory_run l new_factory in
  registry_ok w
  ∧ ∀ r1 r2 cacheId c1 c2,
      instances w !! r1 = Some (cacheId, c1) → is_Some (config c1) →
      instances w !! r2 = Some (cacheId, c2) → is_Some (config c2) →
      r1 = r2.
Proof.
  intros w. assert (Hok : registry_ok w) by apply factory_run_ok, new_factory_ok.
  split; [done|]. intros r1 r2 cacheId c1 c2 H1 L1 H2 L2.
  destruct Hok as [_ Hreg].
  assert (caches w !! cacheId = Some r1) by (apply Hreg; eauto).
  assert (caches w !! cacheId = Some r2) by (apply Hreg; eauto).
  congruence.
Qed.

(** [advancedCacheFactory] (lines 380 to 389) with the constructor: an id
    that is registered, and an id that names a member that [caches]
    inherits from [Object.prototype], is refused as taken, whatever else is
    wrong with the call; then an id that is not a string is refused; then
    options that the constructor rejects are.  A refused call leaves the
    factory as it was.  Any other call returns a new instance, the one the
    constructor makes, and registers it under the id; the other ids keep
    what they had. *)
Theorem factory_create_outcome (cacheId : jskey)
    (options : gmap string jsval) (w : factory) :
  (prop cacheId ∈ dom (caches w) ∨ ¬ own_name cacheId →
   advancedCacheFactory cacheId options w = (w, Failed ErrTaken))
  ∧ (prop cacheId ∉ dom (caches w) → own_name cacheId →
     isString cacheId = false →
     advancedCacheFactory cacheId options w = (w, Failed ErrCacheId))
  ∧ (prop cacheId ∉ dom (caches w) → own_name cacheId →
     isString cacheId = true → ¬ options_accepted options →
     advancedCacheFactory cacheId options w
     = (w, Failed (ErrNew ErrValidation)))
  ∧ (prop cacheId ∉ dom (caches w) → own_name cacheId →
     isString cacheId = true → options_accepted options →
     ∃ w' r c,
       advancedCacheFactory cacheId options w = (w', Created r)
       ∧ instances w !! r = None
       ∧ AdvancedCache (prop cacheId) options = Return c
       ∧ instances w' = <[r := (prop cacheId, c)]> (instances w)
       ∧ advancedCacheFactory_get cacheId w' = Some r
       ∧ ∀ other, prop other ≠ prop cacheId →
           advancedCacheFactory_get other w'
           = advancedCacheFactory_get other w).
Proof.
  assert (Hfree : prop cacheId ∉ dom (caches w) → own_name cacheId →
            prop cacheId ∉ dom (caches w) ∪ Object_prototype).
  { intros H1 H2. by apply not_elem_of_union. }
  unfold advancedCacheFactory. split; [|split; [|split]].
  - intros Hin. rewrite decide_True; [done|]. apply elem_of_union.
    destruct Hin as [Hin|Hin]; [by left|right].
    unfold own_name in Hin.
    by destruct (decide (prop cacheId ∈ Object_prototype)).
  - intros H1 H2 Hstr. by rewrite decide_False, Hstr by auto.
  - intros H1 H2 Hstr Hbad. rewrite decide_False, Hstr by auto. simpl.
    destruct (AdvancedCache (prop cacheId) options) as [c|e] eqn:Hnew.
    + destruct Hbad. apply (constructor_returns_iff (prop cacheId)). eauto.
    + by rewrite (constructor_throws_validation _ _ _ Hnew).
  - intros H1 H2 Hstr Hgood. rewrite decide_False, Hstr by auto. simpl.
    apply (constructor_returns_iff (prop cacheId)) in Hgood as [c Hnew].
    rewrite Hnew. eexists _, _, c. split; [reflexivity|].
    split; [apply not_elem_of_dom, is_fresh|]. split; [done|].
    split; [done|]. unfold advancedCacheFactory_get. cbn [caches].
    split; [apply lookup_insert_eq|].
    intros other Hne. by rewrite lookup_insert_ne.
Qed.

Lemma factory_create_outcome_witness :
  advancedCacheFactory (KString "a") ∅ two_caches
  = (two_caches, Failed ErrTaken)
  ∧ advancedCacheFactory (KString "toString") ∅ new_factory
    = (new_factory, Failed ErrTaken)
  ∧ advancedCacheFactory (KOther "5") ∅ two_caches
    = (two_caches, Failed ErrCacheId)
  ∧ ∃ w' r, advancedCacheFactory (KString "b") ∅ two_caches
            = (w', Created r)
            ∧ advancedCacheFactory_get (KString "b") w' = Some r.
Proof.
  split; [|split; [|split]].
  - apply (factory_create_outcome (KString "a") ∅ two_caches).
    left. by vm_compute.
  - apply (factory_create_outcome (KString "toString") ∅ new_factory).
    right. intros Hown. by vm_compute in Hown.
  - apply (factory_create_outcome (KOther "5") ∅ two_caches);
      by vm_compute.
  - destruct (factory_create_outcome (KString "b") ∅ two_caches)
      as (_ & _ & _ & Hnew).
    destruct Hnew as (w' & r & c & Hcall & _ & _ & _ & Hget & _).
    + by vm_compute.
    + by vm_compute.
    + reflexivity.
    + repeat split; by left.
    + exists w', r. split; [exact Hcall|exact Hget].
Defined.

(** [advancedCacheFactory.get] (lines 429 to 431) and [destroy] (lines 352
    to 358) on a registered instance: [destroy] returns and takes the
    instance out of the registry, so that the id is undefined in the
    factory and free again.  A second [destroy] throws before it reaches
    [delete caches[cacheId]] and changes nothing, also when a new instance
    has taken the id in the meantime: the new instance stays registered. *)
Theorem destroy_unregisters (w : factory) (cacheId : string) (r : nat) :
  registry_ok w → caches w !! cacheId = Some r →
  ∃ w',
    call_on r Destroy w = Some (w', Return (Val VUndef))
    ∧ caches w' = delete cacheId (caches w)
    ∧ advancedCacheFactory_get (KString cacheId) w' = None
    ∧ call_on r Destroy w' = Some (w', Throw TypeError)
    ∧ ∀ options w'' r',
        advancedCacheFactory (KString cacheId) options w' = (w'', Created r') →
        r' ≠ r
        ∧ call_on r Destroy w'' = Some (w'', Throw TypeError)
        ∧ advancedCacheFactory_get (KString cacheId) w'' = Some r'.
Proof.
  intros [Hid Hreg] Hc. pose proof Hc as Hc0.
  apply Hreg in Hc as (c & Hr & [cfg Hcfg]).
  destruct (exec_destroy_live c cfg Hcfg) as (c' & Hex & Hc').
  eexists. rewrite (call_on_eq w r Destroy cacheId c Hr), Hex.
  cbn [fst snd]. split; [reflexivity|]. cbn [caches].
  split; [done|]. split; [apply lookup_delete_eq|].
  split.
  - rewrite (call_on_eq _ r Destroy cacheId c')
      by (cbn [instances]; apply lookup_insert_eq).
    rewrite (exec_destroy_dead c' Hc'). cbn [fst snd caches instances].
    by rewrite insert_insert_eq.
  - intros options w'' r'. unfold advancedCacheFactory.
    cbn [caches instances prop isString negb].
    destruct (decide (cacheId ∈ dom (delete cacheId (caches w))
                      ∪ Object_prototype)); [done|].
    destruct (AdvancedCache cacheId options) as [c2|e]; [|done].
    intros [= <- <-].
    assert (Hne : fresh (dom (<[r := (cacheId, c')]> (instances w))) ≠ r).
    { intros Heq. eapply (is_fresh (dom (<[r := (cacheId, c')]> (instances w)))).
      rewrite Heq, dom_insert. set_solver. }
    split; [done|]. split.
    + rewrite (call_on_eq _ r Destroy cacheId c')
        by (cbn [instances]; rewrite lookup_insert_ne by done;
            apply lookup_insert_eq).
      rewrite (exec_destroy_dead c' Hc'). cbn [fst snd caches instances].
      do 3 f_equal. apply insert_id.
      rewrite lookup_insert_ne by done. apply lookup_insert_eq.
    + unfold advancedCacheFactory_get. cbn [caches prop].
      apply lookup_insert_eq.
Qed.

Lemma destroy_unregisters_witness :
  ∃ w', call_on 0%nat Destroy two_caches = Some (w', Return (Val VUndef))
        ∧ advancedCacheFactory_get (KString "a") w' = None.
Proof.
  destruct (destroy_unregisters two_caches "a" 0%nat)
    as (w' & Hcall & _ & Hget & _).
  - exact two_caches_ok.
  - by vm_compute.
  - exists w'. split; [exact Hcall|exact Hget].
Defined.

Lemma info_returns c :
  info c = (c, Return (<["size" := VNum (size c)]> (default ∅ (config c)))).
Proof. reflexivity. Qed.

(** [advancedCacheFactory.info] (lines 406 to 412) with [info] (lines 369
    to 371), when the registry is in order: the result has one field for
    every registered id and no other; the field is what [info()] of the
    instance under that id returns, and it carries that id and the size of
    that instance. *)
Theorem factory_info_lists_registered (w : factory) :
  registry_ok w →
  dom (advancedCacheFactory_info w) = dom (caches w)
  ∧ ∀ cacheId o,
      advancedCacheFactory_info w !! cacheId = Some o →
      ∃ r c,
        advancedCacheFactory_get (KString cacheId) w = Some r
        ∧ instances w !! r = Some (cacheId, c)
        ∧ info c = (c, Return o)
        ∧ o !! "id" = Some (VStr cacheId)
        ∧ o !! "size" = Some (VNum (size c)).
Proof.
  intros [Hid Hreg].
  assert (Hlook : ∀ cacheId o,
    advancedCacheFactory_info w !! cacheId = Some o
    ↔ ∃ r c, caches w !! cacheId = Some r
             ∧ instances w !! r = Some (cacheId, c)
             ∧ o = <["size" := VNum (size c)]> (default ∅ (config c))).
  { intros cacheId o. unfold advancedCacheFactory_info.
    rewrite lookup_omap. split.
    - destruct (caches w !! cacheId) as [r|] eqn:Hc; [|done]. simpl.
      apply Hreg in Hc as (c & Hr & _). rewrite Hr. simpl.
      intros [= <-]. eauto.
    - intros (r & c & -> & Hr & ->). simpl. by rewrite Hr. }
  split.
  - apply set_eq. intros cacheId. rewrite !elem_of_dom. split.
    + intros [o Ho]. apply Hlook in Ho as (r & _ & Hc & _). eauto.
    + intros [r Hc]. pose proof Hc as Hc0.
      apply Hreg in Hc as (c & Hr & _).
      eexists. apply Hlook. eauto.
  - intros cacheId o Ho. apply Hlook in Ho as (r & c & Hc & Hr & ->).
    exists r, c. split; [done|]. split; [done|].
    split; [apply info_returns|].
    pose proof Hc as Hc0. apply Hreg in Hc as (c1 & Hr1 & [cfg Hcfg]).
    assert (c1 = c) as -> by congruence.
    rewrite Hcfg. simpl. split.
    + rewrite lookup_insert_ne by done. by eapply Hid.
    + apply lookup_insert_eq.
Qed.

Lemma factory_info_lists_registered_witness :
  dom (advancedCacheFactory_info two_caches) = {["a"]}
  ∧ ∃ o, advancedCacheFactory_info two_caches !! "a" = Some o
         ∧ o !! "size" = Some (VNum 1).
Proof.
  destruct (factory_info_lists_registered two_caches two_caches_ok)
    as [Hdom Hfields].
  split.
  - rewrite Hdom. by vm_compute.
  - destruct (advancedCacheFactory_info two_caches !! "a") as [o|] eqn:Ho.
    + exists o. split; [done|].
      destruct (Hfields "a" o Ho) as (r & c & Hget & Hr & _ & _ & Hsize).
      rewrite Hsize. vm_compute in Hget. injection Hget as <-.
      vm_compute in Hr. by injection Hr as <-.
    + by vm_compute in Ho.
Defined.

(** ** Least recently used *)

(** The arming of the expiry leaves the entries of the other keys as they
    are. *)
Lemma put_arm_others c d k o cfg it :
  data c = Some d → d !! prop k = Some it →
  truthy (item.timeoutId it) = false →
  ∃ d', data (fst (put_arm k o cfg c)) = Some d'
        ∧ ∀ key, key ≠ prop k → d' !! key = d !! key.
Proof.
  intros Hd Hit Hold. unfold put_arm.
  destruct (truthy (getprop cfg "maxAge") || truthy (optionsMaxAge o)).
  2:{ exists d. done. }
  destruct c as [sz cfg' d0 lh fe se hp ts nt t]; simpl in Hd; subst d0.
  unfold bind, gets, updateItem, itemTimeoutId, setTimeout, modify, ret.
  simpl. rewrite lookup_alter_eq, Hit. simpl. rewrite Hold. simpl.
  eexists. split; [reflexivity|].
  intros key Hne. by rewrite !lookup_alter_ne.
Qed.

(** A [put] with a string key, a value and a valid max age leaves the
    entries of the other keys as they are, or removes them. *)
Lemma put_data_others c h d cfg k v o :
  lruHash c = Some h → data c = Some d → config c = Some cfg →
  clean (Put k v o) →
  ∃ d', data (fst (put k v o c)) = Some d'
        ∧ ∀ key, key ≠ prop k → d' !! key = None ∨ d' !! key = d !! key.
Proof.
  intros Hh Hd Hcfg (Hstr & Hv & Hage).
  destruct (lookupOrCreate_found c h k Hh)
    as (c1 & x & Hlook & Hd1 & Hcfg1 & _).
  rewrite Hd in Hd1. rewrite Hcfg in Hcfg1.
  rewrite (put_clean_eq c c1 x d cfg k v o Hstr Hv Hage Hlook Hd1 Hcfg1).
  destruct (put_stored_frame k v x d c1)
    as (_ & _ & _ & _ & _ & _ & Hds & _).
  destruct (put_arm_service (put_stored k v x d c1) _ k o cfg
              (item.Item v VUndef VUndef) Hds)
    as (ca & da & Harm & _ & Hda & _);
    [apply lookup_insert_eq|done|].
  destruct (put_arm_others (put_stored k v x d c1) _ k o cfg
              (item.Item v VUndef VUndef) Hds)
    as (da' & Hda' & Hothers);
    [apply lookup_insert_eq|done|].
  rewrite Harm in Hda'. cbn [fst] in Hda'.
  assert (da' = da) as -> by congruence.
  rewrite (bind_return _ _ _ _ _ Harm), fst_bind_ret.
  destruct (put_evict_data cfg ca da Hda) as (d' & Hd' & Hkeep).
  exists d'. split; [done|]. intros key Hne.
  destruct (Hkeep key) as [Hn|He]; [by left|right].
  by rewrite He, Hothers, lookup_insert_ne.
Qed.

(** In a regular state with room for two entries or more, a [put] of
    another key leaves the entry of the key at the fresh end alone. *)
Lemma fresh_end_survives c l0 x cfg cap d h k k' v o :
  regular c (l0 ++ [x]) → config c = Some cfg →
  getprop cfg "capacity" = VNum cap → 2 ≤ cap →
  data c = Some d → lruHash c = Some h → h !! prop k = Some x →
  prop k' ≠ prop k → clean (Put k' v o) →
  ∃ c' l' d', put k' v o c = (c', Return v) ∧ regular c' l'
              ∧ data c' = Some d' ∧ d' !! prop k = d !! prop k.
Proof.
  intros Hreg Hcfg Hcap Hcap2 Hd Hh Hx Hne Hclean.
  pose proof Hreg as (Hinv & (cfg0 & cap0 & Hcfg0 & Hcap0 & Hcap1 & Hsz) & Hex).
  assert (cfg0 = cfg) as -> by congruence.
  assert (cap0 = cap) as -> by congruence.
  pose proof Hinv as (Hl & d0 & h0 & Hd0 & Hh0 & Hi & Hdom & Hszh & Hsize).
  assert (d0 = d) as -> by congruence.
  assert (h0 = h) as -> by congruence.
  pose proof Hclean as (Hstr & Hv & Hbad).
  destruct (put_spec c (l0 ++ [x]) k' v o d cfg cap)
    as (c' & l' & d' & x' & Hput & Hinv' & Hex' & Hcfg' & Hsz' & Hd' & Hval
        & _ & Hin & Hover); try done.
  assert (Hkd : prop k ∈ dom d).
  { rewrite Hdom. apply elem_of_dom. eauto. }
  assert (Hkd' : prop k ∈ dom d').
  { destruct (decide (prop k' ∈ dom d)) as [Hk'|Hk'].
    { rewrite (proj2 (Hin (or_introl Hk'))).
      apply elem_of_union. by right. }
    destruct (decide (size c < cap)) as [Hlt|Hfull].
    { rewrite (proj2 (Hin (or_intror Hlt))).
      apply elem_of_union. by right. }
    destruct (Hover Hk') as (y & l00 & Hl0 & _ & _ & _ & ->); [lia|].
    apply elem_of_difference. split; [apply elem_of_union; by right|].
    rewrite elem_of_singleton. intros Hy.
    assert (Hyl : y ∈ l0 ++ [x]).
    { rewrite Hl0. apply elem_of_cons. by left. }
    assert (h !! prop k = Some y) by (apply Hi; split; [done|congruence]).
    assert (y = x) as -> by congruence.
    rewrite length_app in Hsize. simpl in Hsize.
    destruct l0 as [|z l0]; [simpl in Hsize; lia|].
    simpl in Hl0. injection Hl0 as -> _.
    destruct Hl as (Hnd & _). apply NoDup_cons in Hnd as [Hnin _].
    apply Hnin. apply elem_of_app. right. apply elem_of_cons. by left. }
  assert (Hreg' : regular c' l').
  { split; [done|]. split; [|done]. by exists cfg, cap. }
  exists c', l', d'. split; [done|]. split; [done|]. split; [done|].
  destruct (put_data_others c h d cfg k' v o Hh Hd Hcfg Hclean)
    as (d'' & Hd'' & Hothers).
  rewrite Hput in Hd''. cbn [fst] in Hd''.
  assert (d'' = d') as -> by congruence.
  destruct (Hothers (prop k)) as [Hn|He]; [congruence| |done].
  apply elem_of_dom in Hkd' as [? ?]. congruence.
Qed.

(** [_refresh] (lines 160 to 173) in [get] (line 277) and in [put] (line
    232), with the eviction of [put] (lines 254 to 256): the cache evicts
    the least recently used key.  In a regular state with a capacity of 2 or
    more, a key that has just been read by [get], or just been written by
    [put], keeps its entry through the [put] of another key that follows,
    also when that [put] has to evict. *)
Theorem recently_used_survives c l cfg cap k k' v o :
  regular c l → config c = Some cfg →
  getprop cfg "capacity" = VNum cap → 2 ≤ cap →
  prop k' ≠ prop k → clean (Put k' v o) →
  (∀ d, data c = Some d → prop k ∈ dom d →
     ∃ d2, data (run [Get k; Put k' v o] c) = Some d2
           ∧ d2 !! prop k = d !! prop k)
  ∧ (∀ v0 o0, clean (Put k v0 o0) →
       ∃ d2, data (run [Put k v0 o0; Put k' v o] c) = Some d2
             ∧ item.value <$> d2 !! prop k = Some v0).
Proof.
  intros Hreg Hcfg Hcap Hcap2 Hne Hclean.
  pose proof Hreg as (Hinv & (cfg0 & cap0 & Hcfg0 & Hcap0 & Hcap1 & Hsz) & Hex).
  assert (cfg0 = cfg) as -> by congruence.
  assert (cap0 = cap) as -> by congruence.
  pose proof Hinv as (Hl & d0 & h & Hd0 & Hh & Hi & Hdom & Hszh & Hsize).
  assert (Hrun : ∀ f c1 r,
    exec f c = (c1, Return r) →
    run [f; Put k' v o] c = fst (put k' v o c1)).
  { intros f c1 r Hf.
    change (run [f; Put k' v o] c)
      with (fst (exec (Put k' v o) (fst (exec f c)))).
    rewrite Hf. cbn [fst]. unfold exec. apply fst_bind_pure. }
  split.
  - intros d Hd Hkd. assert (d0 = d) as -> by congruence.
    rewrite Hdom in Hkd. apply elem_of_dom in Hkd as [x Hx].
    assert (Hxl : x ∈ l) by (by eapply indexed_key).
    apply list_elem_of_split in Hxl as (l1 & l2 & ->).
    assert (Hkd : is_Some (d !! prop k)).
    { apply elem_of_dom. rewrite Hdom. apply elem_of_dom. eauto. }
    destruct Hkd as [it Hit].
    destruct (refresh_frame x c) as (Fsz & Fcfg & Fd & Fh & Fts & _).
    assert (Hreg1 : regular (_refresh x c) ((l1 ++ l2) ++ [x])).
    { rewrite <- app_assoc. split; [by apply inv_refresh|]. split.
      - exists cfg, cap. rewrite Fcfg, Fsz. done.
      - intros i tm. rewrite Fts. apply Hex. }
    destruct (fresh_end_survives (_refresh x c) (l1 ++ l2) x cfg cap d h
                k k' v o) as (c' & l' & d' & Hput & _ & Hd' & Hkeep);
      try done; try congruence.
    rewrite (Hrun (Get k) (_refresh x c) (Val (item.value it))).
    + rewrite Hput. eauto.
    + simpl.
      by rewrite (bind_return _ _ _ _ _ (get_found c h d k x it Hh Hd Hx Hit)).
  - intros v0 o0 Hclean0. pose proof Hclean0 as (Hstr0 & Hv0 & Hbad0).
    destruct (put_spec c l k v0 o0 d0 cfg cap)
      as (c1 & l1 & d1 & x & Hput1 & Hinv1 & Hex1 & Hcfg1 & Hsz1 & Hd1 & Hval1
          & Hx & Hin & Hover); try done.
    assert (Hl1 : ∃ l0, l1 = l0 ++ [x]).
    { destruct (decide (prop k ∈ dom d0)) as [Hk|Hk].
      { eexists. apply (Hin (or_introl Hk)). }
      destruct (decide (size c < cap)) as [Hlt|Hfull].
      { eexists. apply (Hin (or_intror Hlt)). }
      destruct (Hover Hk) as (y & l00 & _ & _ & -> & _); [lia|]. eauto. }
    destruct Hl1 as [l0 ->].
    assert (Hreg1 : regular c1 (l0 ++ [x])).
    { split; [done|]. split; [|done]. by exists cfg, cap. }
    destruct (lruHash c1) as [h1|] eqn:Hh1; [|done]. simpl in Hx.
    destruct (fresh_end_survives c1 l0 x cfg cap d1 h1 k k' v o)
      as (c' & l' & d' & Hput & _ & Hd' & Hkeep); try done.
    rewrite (Hrun (Put k v0 o0) c1 (Val v0)).
    + rewrite Hput. exists d'. split; [done|]. by rewrite Hkeep.
    + simpl. by rewrite (bind_return _ _ _ _ _ Hput1).
Qed.

Lemma recently_used_survives_witness :
  ∃ d2, data (run [Get (KString "a"); Put (KString "z") (VNum 7) None]
                  full_two) = Some d2
        ∧ d2 !! "a" = Some (item.Item (VNum 1) VUndef VUndef).
Proof.
  destruct (recently_used_survives full_two [0; 1]%nat
              {["capacity" := VNum 2; "id" := VStr "c"]} 2
              (KString "a") (KString "z") (VNum 7) None)
    as [Hget _].
  - exact full_two_regular.
  - by vm_compute.
  - reflexivity.
  - lia.
  - done.
  - apply clean_put_value.
  - destruct (Hget {["a" := item.Item (VNum 1) VUndef VUndef;
                     "b" := item.Item (VNum 2) VUndef VUndef]})
      as (d2 & Hd2 & Hkeep).
    + by vm_compute.
    + by vm_compute.
    + exists d2. split; [exact Hd2|]. etrans; [exact Hkeep|]. by vm_compute.
Defined.

(** ** [remove] twice *)

Lemma remove_dead c k :
  lruHash c = None → remove k c = (c, Throw TypeError).
Proof. intros Hh. unfold remove, bind, gets. by rewrite Hh. Qed.

Lemma remove_found_no_data c h k x :
  lruHash c = Some h → data c = None → h !! prop k = Some x →
  remove k c
  = (set_lruHash (Some (delete (prop k) h)) (remove_unlink x c),
     Throw TypeError).
Proof.
  intros Hh Hd Hx. unfold remove, remove_unlink, bind, gets, modify, ret.
  destruct c as [sz cfg d' lh fe se hp ts nt t]. simpl in *; subst.
  rewrite Hx. simpl.
  destruct (decide (RObj x = fe)); simpl;
    destruct (decide (RObj x = se)); simpl; reflexivity.
Qed.

(** [remove], lines 299 to 317, in any state, for a key that names no
    inherited member: a second [remove] of the same key right after the
    first changes nothing, and it returns whenever the instance has not been
    destroyed, also when the first has thrown. *)
Theorem remove_twice (c : cache) (k : jskey) :
  own_name k →
  fst (remove k (fst (remove k c))) = fst (remove k c)
  ∧ (is_Some (lruHash c) →
     remove k (fst (remove k c)) = (fst (remove k c), Return VUndef)).
Proof.
  intros _. destruct (lruHash c) as [h|] eqn:Hh.
  2:{ rewrite !(remove_dead c k Hh). cbn [fst].
      rewrite (remove_dead c k Hh). split; [done|]. by intros [? ?]. }
  assert (Hgone : ∀ c', lruHash c' = Some (delete (prop k) h) →
            remove k c' = (c', Return VUndef)).
  { intros c' Hh'. apply (remove_missing c' _ k Hh'), lookup_delete_eq. }
  destruct (h !! prop k) as [x|] eqn:Hx.
  - destruct (data c) as [d|] eqn:Hd.
    + rewrite (remove_found c h d k x) by done. cbn [fst].
      rewrite Hgone by done. done.
    + rewrite (remove_found_no_data c h k x) by done. cbn [fst].
      rewrite Hgone by done. done.
  - rewrite (remove_missing c h k) by done. cbn [fst].
    rewrite (remove_missing c h k) by done. done.
Qed.

Lemma remove_twice_witness :
  remove (KString "a") (fst (remove (KString "a") full_two))
  = (fst (remove (KString "a") full_two), Return VUndef).
Proof.
  apply (remove_twice full_two (KString "a")).
  - by vm_compute.
  - by eexists.
Defined.
